(** * ASTwalker: import and call graph of a Python package

    A shallow embedding of [ASTwalker.py]: the Module Namer
    ([module_name]), the Per-File Analyzer ([CodeAnalyzer]), the Graph
    Builder ([build_graph]) and the Pruner ([prune_graph]), together with
    the properties the specification states about them.

    Python values are modelled as follows.
    - [str] is [string]; the [str] methods the program calls are written
      out in [PyStr].
    - [pathlib.Path] is the list of its components.
    - [dict] and [set] are [gmap] and [gset]; no property below depends on
      insertion order.
    - [nx.DiGraph] is a record of a node table and an edge table, see
      [DiGraph].
    - A Python exception is [None] in an [option] result. *)

From Stdlib Require Import Ascii String.
From stdpp Require Import base option list gmap sets strings.

Set Warnings "-register-all,-clear-no-such-hyp".

(** ** Python [str] methods *)
Module PyStr.

(** [s.startswith(p)] *)
Fixpoint startswith (s p : string) {struct p} : bool :=
  match p, s with
  | EmptyString, _ => true
  | String _ _, EmptyString => false
  | String c p', String d s' => if decide (c = d) then startswith s' p' else false
  end.

(** [c in s] for a one-character [c] *)
Fixpoint contains (c : ascii) (s : string) : bool :=
  match s with
  | EmptyString => false
  | String a s' => if decide (a = c) then true else contains c s'
  end.

(** [s.split(c, 1)] has two elements exactly when [c] occurs in [s];
    [partition c s] is then [Some] of the two, and [None] when the result
    is the one-element list [[s]]. *)
Fixpoint partition (c : ascii) (s : string) : option (string * string) :=
  match s with
  | EmptyString => None
  | String a s' =>
      if decide (a = c) then Some (EmptyString, s')
      else match partition c s' with
           | Some (h, t) => Some (String a h, t)
           | None => None
           end
  end.

(** [s.split(c)] *)
Fixpoint split (c : ascii) (s : string) : list string :=
  match s with
  | EmptyString => [EmptyString]
  | String a s' =>
      if decide (a = c) then EmptyString :: split c s'
      else match split c s' with
           | h :: t => String a h :: t
           | [] => [String a EmptyString]
           end
  end.

(** [s.split(c, k)] for [k >= 0] *)
Fixpoint lsplit (c : ascii) (k : nat) (s : string) : list string :=
  match k with
  | O => [s]
  | S k' =>
      match partition c s with
      | Some (h, t) => h :: lsplit c k' t
      | None => [s]
      end
  end.

(** [s.rsplit(c, k)] for [k >= 0]: the same scan from the right end. *)
Definition rsplit (c : ascii) (k : nat) (s : string) : list string :=
  reverse (String.rev <$> lsplit c k (String.rev s)).

(** [sep.join(l)] *)
Fixpoint join (sep : string) (l : list string) : string :=
  match l with
  | [] => EmptyString
  | [x] => x
  | x :: l' => x +:+ sep +:+ join sep l'
  end.

(** [s.rfind(c)], as [None] for [-1] *)
Fixpoint rfind (c : ascii) (s : string) : option nat :=
  match s with
  | EmptyString => None
  | String a s' =>
      match rfind c s' with
      | Some i => Some (S i)
      | None => if decide (a = c) then Some 0 else None
      end
  end.

(** [s[:n]] *)
Fixpoint prefix_of (n : nat) (s : string) : string :=
  match n, s with
  | O, _ => EmptyString
  | S _, EmptyString => EmptyString
  | S n', String a s' => String a (prefix_of n' s')
  end.

(** Truth value of a [str]: the empty string is false. *)
Definition truthy (s : string) : bool :=
  match s with EmptyString => false | _ => true end.

(** [a or b] where [a] is [None] or a [str] *)
Definition or_else (a : option string) (b : string) : string :=
  match a with
  | Some s => if truthy s then s else b
  | None => b
  end.

End PyStr.

(** ** Module Namer *)

(** A [pathlib.Path] by its components ([Path.parts]). *)
Definition Path := list string.

(** [path.relative_to(root)]; [ValueError] when [root] is not a prefix. *)
Fixpoint relative_to (path root : Path) : option Path :=
  match root, path with
  | [], _ => Some path
  | _ :: _, [] => None
  | r :: root', p :: path' =>
      if decide (r = p) then relative_to path' root' else None
  end.

(** [Path.suffix] of a file name: the part from the last dot on, when that
    dot is neither the first nor the last character. [strip_suffix] drops
    it: the name that [with_suffix('')] puts in its place. *)
Definition strip_suffix (name : string) : string :=
  match PyStr.rfind "." name with
  | Some i =>
      if decide (0 < i ∧ i < String.length name - 1)
      then PyStr.prefix_of i name else name
  | None => name
  end.

(** [path.with_suffix('')]; [ValueError] on a path with an empty name,
    and (from Python 3.12 on) when the name left is a single dot. *)
Fixpoint with_suffix_empty (p : Path) : option Path :=
  match p with
  | [] => None
  | [name] =>
      let stem := strip_suffix name in
      if decide (stem = ".") then None else Some [stem]
  | d :: p' => (d ::.) <$> with_suffix_empty p'
  end.

(** [fpath.name] *)
Definition path_name (p : Path) : string := List.last p "".

(** [module_name(path, root_dir)]. The global [ROOT_PKG] that the function
    reads is its first argument here. *)
Definition module_name (ROOT_PKG : string) (path root_dir : Path) : option string :=
  rel ← relative_to path root_dir;
  rel' ← with_suffix_empty rel;
  Some (ROOT_PKG +:+ "." +:+ PyStr.join "." rel').

(** ** Syntax trees *)

(** [ast.alias] *)
Record alias := Alias { alias_name : string; alias_asname : option string }.

(** The name an import binds locally: [alias.asname or alias.name]. *)
Definition local_name (a : alias) : string :=
  PyStr.or_else (alias_asname a) (alias_name a).

(** The node kinds [CodeAnalyzer] tells apart. [Other] stands for every
    other kind of [ast] node; its children are listed in the order in which
    [generic_visit] reaches them, as are those of [ClassDef] and
    [FunctionDef]. The children of a [Call] are its [func] followed by its
    arguments and keywords. The [ast.alias] children of an import and the
    expression context of a [Name] have no visitor and no children. *)
Inductive node :=
| Import (names : list alias)
| ImportFrom (module : option string) (names : list alias) (level : nat)
| ClassDef (name : string) (children : list node)
| FunctionDef (name : string) (children : list node)
| Call (func : node) (args : list node)
| Name (id : string)
| Attribute (value : node) (attr : string)
| Other (children : list node).

(** Induction on syntax trees, with the children of a node as a list. *)
Section node_induction.
Variable P : node → Prop.
Hypothesis HImport : ∀ names, P (Import names).
Hypothesis HImportFrom : ∀ module names level, P (ImportFrom module names level).
Hypothesis HClassDef : ∀ name children, Forall P children → P (ClassDef name children).
Hypothesis HFunctionDef : ∀ name children, Forall P children → P (FunctionDef name children).
Hypothesis HCall : ∀ func args, P func → Forall P args → P (Call func args).
Hypothesis HName : ∀ id, P (Name id).
Hypothesis HAttribute : ∀ value attr, P value → P (Attribute value attr).
Hypothesis HOther : ∀ children, Forall P children → P (Other children).

Fixpoint node_induction (n : node) : P n :=
  let all := fix go (l : list node) : Forall P l :=
    match l with
    | [] => List.Forall_nil P
    | c :: l' => List.Forall_cons P c l' (node_induction c) (go l')
    end in
  match n with
  | Import names => HImport names
  | ImportFrom module names level => HImportFrom module names level
  | ClassDef name children => HClassDef name children (all children)
  | FunctionDef name children => HFunctionDef name children (all children)
  | Call func args => HCall func args (node_induction func) (all args)
  | Name id => HName id
  | Attribute value attr => HAttribute value attr (node_induction value)
  | Other children => HOther children (all children)
  end.
End node_induction.

(** ** Per-File Analyzer *)

Record CodeAnalyzer := mkCA {
  modname : string;
  imports : gset string;
  aliases : gmap string string;
  func_defs : gmap string string;
  calls : list (string * string);
  current_fn : option string;
  current_class : option string
}.

(** [CodeAnalyzer(modname)] *)
Definition init (m : string) : CodeAnalyzer :=
  mkCA m ∅ ∅ ∅ [] None None.

Definition set_current_fn (v : option string) (ca : CodeAnalyzer) : CodeAnalyzer :=
  mkCA (modname ca) (imports ca) (aliases ca) (func_defs ca) (calls ca)
       v (current_class ca).

Definition set_current_class (v : option string) (ca : CodeAnalyzer) : CodeAnalyzer :=
  mkCA (modname ca) (imports ca) (aliases ca) (func_defs ca) (calls ca)
       (current_fn ca) v.

Definition bind_alias (asn full : string) (ca : CodeAnalyzer) : CodeAnalyzer :=
  mkCA (modname ca) (imports ca) (<[asn := full]> (aliases ca)) (func_defs ca)
       (calls ca) (current_fn ca) (current_class ca).

Definition add_import (m : string) (ca : CodeAnalyzer) : CodeAnalyzer :=
  mkCA (modname ca) ({[m]} ∪ imports ca) (aliases ca) (func_defs ca)
       (calls ca) (current_fn ca) (current_class ca).

Definition define_func (name qual : string) (ca : CodeAnalyzer) : CodeAnalyzer :=
  mkCA (modname ca) (imports ca) (aliases ca) (<[name := qual]> (func_defs ca))
       (calls ca) (current_fn ca) (current_class ca).

Definition append_call (c : string * string) (ca : CodeAnalyzer) : CodeAnalyzer :=
  mkCA (modname ca) (imports ca) (aliases ca) (func_defs ca)
       (calls ca ++ [c]) (current_fn ca) (current_class ca).

(** The caller of a call site: line 131. *)
Definition caller_of (ca : CodeAnalyzer) : string :=
  PyStr.or_else (current_fn ca) ("module:" +:+ modname ca).

Section Analyzer.

(** The global [ROOT_PKG], set once by [main] before anything runs. *)
Variable ROOT_PKG : string.

(** Body of the loop of [visit_Import]. *)
Definition visit_Import_alias (ca : CodeAnalyzer) (a : alias) : CodeAnalyzer :=
  let full := alias_name a in
  let asn := local_name a in
  let ca := bind_alias asn full ca in
  if PyStr.startswith full ROOT_PKG then add_import full ca else ca.

Definition visit_Import (names : list alias) (ca : CodeAnalyzer) : CodeAnalyzer :=
  foldl visit_Import_alias ca names.

(** The specification's reading of line 82: the stated module, appended
    to the base when there is one. *)
Definition with_module_suffix (base : string) (module : option string) : string :=
  match module with
  | Some s => if PyStr.truthy s then base +:+ "." +:+ s else base
  | None => base
  end.

(** The module a from-import resolves against: lines 79 to 82. *)
Definition from_module (m : string) (module : option string) (level : nat) : string :=
  let module := PyStr.or_else module "" in
  match level with
  | O => module
  | S _ =>
      let parent := default "" (head (PyStr.rsplit "." level m)) in
      if PyStr.truthy module then parent +:+ "." +:+ module else parent
  end.

(** The qualified name bound to an imported name: line 88. *)
Definition from_full (module name : string) : string :=
  if PyStr.truthy module then module +:+ "." +:+ name else name.

(** Body of the loop of [visit_ImportFrom]. *)
Definition visit_ImportFrom_alias (module : string)
    (ca : CodeAnalyzer) (a : alias) : CodeAnalyzer :=
  if decide (alias_name a = "*") then ca
  else
    let name := alias_name a in
    let asn := local_name a in
    let full := from_full module name in
    let ca := bind_alias asn full ca in
    if PyStr.startswith full ROOT_PKG then add_import module ca else ca.

Definition visit_ImportFrom (module : option string) (names : list alias)
    (level : nat) (ca : CodeAnalyzer) : CodeAnalyzer :=
  foldl (visit_ImportFrom_alias (from_module (modname ca) module level)) ca names.

(** The qualified name of a function definition: lines 101 to 103. *)
Definition func_qual (m : string) (cls : option string) (name : string) : string :=
  match cls with
  | Some c =>
      if PyStr.truthy c then "function:" +:+ m +:+ "." +:+ c +:+ "." +:+ name
      else "function:" +:+ m +:+ "." +:+ name
  | None => "function:" +:+ m +:+ "." +:+ name
  end.

(** The callee [visit_Call] resolves, [None] when it resolves none:
    lines 111 to 129. *)
Definition resolve_callee (func : node) (ca : CodeAnalyzer) : option string :=
  match func with
  | Name name =>
      match func_defs ca !! name with
      | Some q => Some q
      | None =>
          match aliases ca !! name with
          | Some full =>
              if PyStr.startswith full ROOT_PKG then
                if PyStr.contains "." full then Some ("function:" +:+ full)
                else Some ("module:" +:+ full)
              else None
          | None => None
          end
      end
  | Attribute (Name id) attr =>
      match aliases ca !! id with
      | Some full =>
          if PyStr.startswith full ROOT_PKG
          then Some ("function:" +:+ full +:+ "." +:+ attr)
          else None
      | None => None
      end
  | _ => None
  end.

(** Lines 130 to 132. *)
Definition record_call (func : node) (ca : CodeAnalyzer) : CodeAnalyzer :=
  match resolve_callee func ca with
  | Some callee =>
      if PyStr.truthy callee then
        append_call (caller_of ca, callee) ca
      else ca
  | None => ca
  end.

(** [NodeVisitor.visit]: the [visit_*] method of the node's kind, and
    [generic_visit] where the class defines none. *)
Fixpoint visit (n : node) (ca : CodeAnalyzer) {struct n} : CodeAnalyzer :=
  let generic_visit :=
    fix go (l : list node) (ca : CodeAnalyzer) {struct l} : CodeAnalyzer :=
      match l with
      | [] => ca
      | c :: l' => go l' (visit c ca)
      end in
  match n with
  | Import names => visit_Import names ca
  | ImportFrom module names level => visit_ImportFrom module names level ca
  | ClassDef name children =>
      let prev := current_class ca in
      let ca := set_current_class (Some name) ca in
      let ca := generic_visit children ca in
      set_current_class prev ca
  | FunctionDef name children =>
      let qual := func_qual (modname ca) (current_class ca) name in
      let ca := define_func name qual ca in
      let prev := current_fn ca in
      let ca := set_current_fn (Some qual) ca in
      let ca := generic_visit children ca in
      set_current_fn prev ca
  | Call func args =>
      let ca := record_call func ca in
      generic_visit (func :: args) ca
  | Name _ => ca
  | Attribute value _ => visit value ca
  | Other children => generic_visit children ca
  end.

(** [generic_visit] over a list of children. *)
Definition visit_list (l : list node) (ca : CodeAnalyzer) : CodeAnalyzer :=
  foldl (λ ca c, visit c ca) ca l.

(** Pass 1 for one file: [ca = CodeAnalyzer(mod); ca.visit(tree)]. *)
Definition analyze (m : string) (tree : node) : CodeAnalyzer :=
  visit tree (init m).

End Analyzer.

(** ** Definitions in traversal order *)

(** A traversal returns with the module name and the function and class
    contexts it started with. *)
Definition same_context (ca ca' : CodeAnalyzer) : Prop :=
  modname ca' = modname ca ∧ current_fn ca' = current_fn ca
  ∧ current_class ca' = current_class ca.


(** The function definitions of a tree, in the order in which the
    traversal reaches them, each with the qualified name that the rule of
    the data model gives it: [<module>.<name>], or [<module>.<class>.<name>]
    within the body of a class. *)
Fixpoint registrations (m : string) (cls : option string) (n : node)
    {struct n} : list (string * string) :=
  let all := λ (cls : option string),
    fix go (l : list node) {struct l} : list (string * string) :=
      match l with
      | [] => []
      | c :: l' => registrations m cls c ++ go l'
      end in
  match n with
  | Import _ | ImportFrom _ _ _ | Name _ => []
  | ClassDef name children => all (Some name) children
  | FunctionDef name children =>
      (name, func_qual m cls name) :: all cls children
  | Call func args => all cls (func :: args)
  | Attribute value _ => registrations m cls value
  | Other children => all cls children
  end.

Definition registrations_list (m : string) (cls : option string)
    (l : list node) : list (string * string) :=
  flat_map (registrations m cls) l.

(** The symbol table after a list of registrations, each overwriting
    what it finds. *)
Definition apply_registrations (regs : list (string * string))
    (table : gmap string string) : gmap string string :=
  foldl (λ t r, <[r.1 := r.2]> t) table regs.

(** The qualified name registered last under a simple name. *)
Fixpoint last_registered (name : string) (regs : list (string * string))
    : option string :=
  match regs with
  | [] => None
  | (k, q) :: regs' =>
      match last_registered name regs' with
      | Some q' => Some q'
      | None => if decide (k = name) then Some q else None
      end
  end.

(** ** Directed graphs *)

(** Attribute values: strings, numbers, booleans and the one-level
    dictionaries of [STYLE]. *)
Inductive value :=
| VStr (s : string)
| VInt (n : Z)
| VBool (b : bool)
| VDict (d : list (string * string)).

(** [nx.DiGraph]: one attribute dictionary per node and one per ordered
    pair of nodes joined by an edge. *)
Record DiGraph := mkG {
  nodes : gmap string (gmap string value);
  edges : gmap (string * string) (gmap string value)
}.

Module nx.

(** [nx.DiGraph()] *)
Definition empty : DiGraph := mkG ∅ ∅.

(** [G.has_node(n)] *)
Definition has_node (n : string) (G : DiGraph) : bool :=
  bool_decide (is_Some (nodes G !! n)).

(** [G.add_node(n, **attr)]: a new node gets [attr], an existing one has
    its dictionary updated with [attr]. *)
Definition add_node (n : string) (attr : gmap string value) (G : DiGraph) : DiGraph :=
  mkG (<[n := attr ∪ default ∅ (nodes G !! n)]> (nodes G)) (edges G).

(** [G.add_edge(u, v, **attr)]: an endpoint that is not a node yet becomes
    one, without attributes; the dictionary of the pair is created or
    updated. *)
Definition add_edge (u v : string) (attr : gmap string value) (G : DiGraph) : DiGraph :=
  let ns := nodes G in
  let ns := if decide (is_Some (ns !! u)) then ns else <[u := ∅]> ns in
  let ns := if decide (is_Some (ns !! v)) then ns else <[v := ∅]> ns in
  mkG ns (<[(u, v) := attr ∪ default ∅ (edges G !! (u, v))]> (edges G)).

(** [G.remove_node(n)] for a node of [G]: the node goes, and every edge
    into or out of it. *)
Definition remove_node (n : string) (G : DiGraph) : DiGraph :=
  mkG (delete n (nodes G))
      (filter (λ e, e.1.1 ≠ n ∧ e.1.2 ≠ n) (edges G)).

(** [G.remove_nodes_from(l)]; names that are not nodes are passed over. *)
Definition remove_nodes_from (l : list string) (G : DiGraph) : DiGraph :=
  foldl (λ G n, if has_node n G then remove_node n G else G) G l.

(** [G.nodes()] and [G.edges()], as lists of keys. *)
Definition node_list (G : DiGraph) : list string := (map_to_list (nodes G)).*1.
Definition edge_list (G : DiGraph) : list (string * string) :=
  (map_to_list (edges G)).*1.

(** [G.number_of_edges()] *)
Definition number_of_edges (G : DiGraph) : nat := length (edge_list G).

End nx.

(** ** Configuration *)

Definition STYLE_file : gmap string value :=
  {[ "shape" := VStr "box";
     "color" := VDict [("background", "#F1C40F"); ("border", "#B7950B")];
     "borderWidth" := VInt 1;
     "font" := VDict [("color", "#000000")] ]}.

Definition STYLE_module : gmap string value :=
  {[ "shape" := VStr "box";
     "color" := VDict [("background", "#4A90E2"); ("border", "#1F78B4")];
     "borderWidth" := VInt 2;
     "font" := VDict [("color", "#000000")] ]}.

Definition STYLE_function : gmap string value :=
  {[ "shape" := VStr "ellipse";
     "color" := VDict [("background", "#F5F5F5"); ("border", "#CCCCCC")];
     "borderWidth" := VInt 1;
     "font" := VDict [("color", "#000000")] ]}.

Definition STYLE_import_edge : gmap string value := {[ "color" := VStr "#888888" ]}.
Definition STYLE_call_edge : gmap string value := {[ "color" := VStr "#666666" ]}.

(** The edge dictionary of lines 163 to 167. *)
Definition STYLE_declare_edge : gmap string value :=
  {[ "color" := VStr "#888888"; "dashes" := VBool true ]}.

Definition IGNORE_MODULES : gset string :=
  {[ "logging"; "os"; "sys"; "timeit"; "pytz"; "datetime"; "numpy"; "traceback" ]}.

(** [label=..., **style] *)
Definition labelled (lbl : string) (style : gmap string value) : gmap string value :=
  <["label" := VStr lbl]> style.

(** ** Graph Builder *)

(** [name.split('.')[-1]] *)
Definition last_component (name : string) : string :=
  List.last (PyStr.split "." name) "".

(** Lines 171 to 182: the node a call pair names is created when the graph
    does not have it; unpacking [node_id.split(':', 1)] raises [ValueError]
    on a name without a colon. *)
Definition ensure_node (node_id : string) (G : DiGraph) : option DiGraph :=
  if nx.has_node node_id G then Some G
  else
    '(kind, name) ← PyStr.partition ":" node_id;
    Some (if decide (kind = "function")
          then nx.add_node node_id (labelled (last_component name) STYLE_function) G
          else if decide (kind = "module")
          then nx.add_node node_id (labelled name STYLE_module) G
          else nx.add_node node_id (labelled name ∅) G).

(** Body of the loop over [ca.calls]: lines 170 to 183. *)
Definition add_call (G : DiGraph) (c : string * string) : option DiGraph :=
  G ← ensure_node c.1 G;
  G ← ensure_node c.2 G;
  Some (nx.add_edge c.1 c.2 STYLE_call_edge G).

Fixpoint add_calls (cs : list (string * string)) (G : DiGraph) : option DiGraph :=
  match cs with
  | [] => Some G
  | c :: cs' => G ← add_call G c; add_calls cs' G
  end.

(** Body of the loop over [ca.imports]: lines 156 to 158. *)
Definition add_import_edge (mod_id : string) (G : DiGraph) (im : string) : DiGraph :=
  let tgt := "module:" +:+ im in
  let G := nx.add_node tgt (labelled im STYLE_module) G in
  nx.add_edge mod_id tgt STYLE_import_edge G.

(** Body of the loop over [ca.func_defs.values()]: lines 161 to 167. The
    label is [qual.split(':', 1)[1].split('.')[-1]]; [IndexError] on a
    name without a colon. *)
Definition add_func (mod_id : string) (G : DiGraph) (qual : string) : option DiGraph :=
  '(_, name) ← PyStr.partition ":" qual;
  let G := nx.add_node qual (labelled (last_component name) STYLE_function) G in
  Some (nx.add_edge mod_id qual STYLE_declare_edge G).

Fixpoint add_funcs (mod_id : string) (quals : list string) (G : DiGraph)
    : option DiGraph :=
  match quals with
  | [] => Some G
  | q :: quals' => G ← add_func mod_id G q; add_funcs mod_id quals' G
  end.

(** The facts of one file, as Pass 1 leaves them in [results]. *)
Definition result : Type := Path * string * CodeAnalyzer.

(** Body of the loop of Pass 2: lines 148 to 183. *)
Definition add_result (G : DiGraph) (r : result) : option DiGraph :=
  let '(fpath, m, ca) := r in
  let file_id := "file:" +:+ m in
  let G := nx.add_node file_id (labelled (path_name fpath) STYLE_file) G in
  let mod_id := "module:" +:+ m in
  let G := nx.add_node mod_id (labelled m STYLE_module) G in
  let G := nx.add_edge file_id mod_id STYLE_import_edge G in
  let G := foldl (add_import_edge mod_id) G (elements (imports ca)) in
  G ← add_funcs mod_id (map_to_list (func_defs ca)).*2 G;
  add_calls (calls ca) G.

(** Pass 2: lines 147 to 183, from the graph built so far. *)
Fixpoint aggregate_from (rs : list result) (G : DiGraph) : option DiGraph :=
  match rs with
  | [] => Some G
  | r :: rs' => G ← add_result G r; aggregate_from rs' G
  end.

Definition aggregate (rs : list result) : option DiGraph :=
  aggregate_from rs nx.empty.

(** Pass 1: lines 140 to 145. A file is given by its path and the tree
    [ast.parse] returns for it. *)
Fixpoint analyze_files (ROOT_PKG : string) (root_dir : Path)
    (files : list (Path * node)) : option (list result) :=
  match files with
  | [] => Some []
  | (f, tree) :: files' =>
      m ← module_name ROOT_PKG f root_dir;
      rs ← analyze_files ROOT_PKG root_dir files';
      Some ((f, m, analyze ROOT_PKG m tree) :: rs)
  end.

(** [build_graph(root_dir)], on the files [scan_py_files] lists. *)
Definition build_graph (ROOT_PKG : string) (root_dir : Path)
    (files : list (Path * node)) : option DiGraph :=
  rs ← analyze_files ROOT_PKG root_dir files;
  aggregate rs.

(** ** Pruner *)

(** The test of lines 191 and 192 on [n.split(':', 1)[1]]. *)
Definition ignored (ign : gset string) (name : string) : bool :=
  bool_decide (name ∈ ign)
  || existsb (λ i, PyStr.startswith name (i +:+ ".")) (elements ign).

(** [n.split(':', 1)[1]]; [IndexError] on a name without a colon. *)
Definition qualified_name (n : string) : option string :=
  snd <$> PyStr.partition ":" n.

(** The list comprehension of lines 189 to 193. *)
Fixpoint to_remove (ign : gset string) (ns : list string) : option (list string) :=
  match ns with
  | [] => Some []
  | n :: ns' =>
      name ← qualified_name n;
      rest ← to_remove ign ns';
      Some (if ignored ign name then n :: rest else rest)
  end.

(** [prune_graph(G)], with the global [IGNORE_MODULES] as an argument. *)
Definition prune_graph (ign : gset string) (G : DiGraph) : option DiGraph :=
  to_rm ← to_remove ign (nx.node_list G);
  Some (nx.remove_nodes_from to_rm G).

(** [main], from the parsed files to the graph handed to the renderer:
    lines 380 and 381. *)
Definition pipeline (ROOT_PKG : string) (ign : gset string) (root_dir : Path)
    (files : list (Path * node)) : option DiGraph :=
  G ← build_graph ROOT_PKG root_dir files;
  prune_graph ign G.

(** ** Properties of graphs and fact sets *)

(** No edge dangles: both endpoints of every edge are nodes. *)
Definition no_dangling (G : DiGraph) : Prop :=
  ∀ u v, is_Some (edges G !! (u, v)) → u ∈ dom (nodes G) ∧ v ∈ dom (nodes G).

(** Every node was created by [add_node] with a label, none by [add_edge]
    on the side. *)
Definition all_labelled (G : DiGraph) : Prop :=
  ∀ n attr, nodes G !! n = Some attr → is_Some (attr !! "label").

(** The attributes of a placeholder node, by the kind tag of its name. *)
Definition placeholder_attr (kind name : string) : gmap string value :=
  if decide (kind = "function") then labelled (last_component name) STYLE_function
  else if decide (kind = "module") then labelled name STYLE_module
  else labelled name ∅.

(** A node name of the form [kind:name]. *)
Definition has_colon (s : string) : Prop := PyStr.contains ":" s = true.

(** The fact sets the analyzer produces: every function and every end of
    a call pair is named [kind:name]. *)
Definition tagged_facts (ca : CodeAnalyzer) : Prop :=
  map_Forall (λ _ q, has_colon q) (func_defs ca)
  ∧ Forall (λ c, has_colon c.1 ∧ has_colon c.2) (calls ca).

(** The nodes and the edges one file's facts stand for. *)
Definition result_nodes (r : result) : gset string :=
  let '(_, m, ca) := r in
  {[ "file:" +:+ m; "module:" +:+ m ]}
  ∪ list_to_set ((λ im, "module:" +:+ im) <$> elements (imports ca))
  ∪ list_to_set (map_to_list (func_defs ca)).*2
  ∪ list_to_set (calls ca).*1 ∪ list_to_set (calls ca).*2.

Definition result_edges (r : result) : gset (string * string) :=
  let '(_, m, ca) := r in
  {[ ("file:" +:+ m, "module:" +:+ m) ]}
  ∪ list_to_set ((λ im, ("module:" +:+ m, "module:" +:+ im)) <$> elements (imports ca))
  ∪ list_to_set ((λ q, ("module:" +:+ m, q)) <$> (map_to_list (func_defs ca)).*2)
  ∪ list_to_set (calls ca).

(** A name matches the ignore set: it is an entry, or an entry followed by
    a dot and more. *)
Definition matches_entry (ign : gset string) (name : string) : Prop :=
  name ∈ ign ∨ ∃ i rest, i ∈ ign ∧ name = i +:+ "." +:+ rest.

(** The nodes the Pruner removes: those whose qualified name is ignored. *)
Definition pruned (ign : gset string) (n : string) : bool :=
  match qualified_name n with
  | Some name => ignored ign name
  | None => false
  end.

(** Two graphs over the same nodes and the same edges. *)
Definition same_nodes_edges (G G' : DiGraph) : Prop :=
  dom (nodes G) = dom (nodes G') ∧ dom (edges G) = dom (edges G').

(** [G'] is [G] with the nodes [N] and the edges [E] added, and keeps the
    two invariants of the builder. *)
Definition extends (N : gset string) (E : gset (string * string))
    (G G' : DiGraph) : Prop :=
  dom (nodes G') = N ∪ dom (nodes G)
  ∧ dom (edges G') = E ∪ dom (edges G)
  ∧ (no_dangling G → no_dangling G')
  ∧ (all_labelled G → all_labelled G').

(** ** The command line *)

(** [root_dir.name] of a resolved, hence absolute, directory: its last
    component, and the empty string for the file-system root itself. *)
Definition resolved_name (root_dir : Path) : string :=
  match root_dir with
  | [] | [_] => ""
  | _ => path_name root_dir
  end.

(** [main], from the resolved root directory and the parsed files to the
    graph handed to the renderer: the global [ROOT_PKG] is set from the
    root directory's name, the graph is built and pruned with the built-in
    ignore set (lines 368 to 381). *)
Definition main (root_dir : Path) (files : list (Path * node)) : option DiGraph :=
  let ROOT_PKG := resolved_name root_dir in
  G ← build_graph ROOT_PKG root_dir files;
  prune_graph IGNORE_MODULES G.

(** ** Further properties of fact sets and graphs *)

(** The number of call sites of a tree. *)
Fixpoint count_calls (n : node) {struct n} : nat :=
  let all :=
    fix go (l : list node) {struct l} : nat :=
      match l with
      | [] => 0
      | c :: l' => count_calls c + go l'
      end in
  match n with
  | Import _ | ImportFrom _ _ _ | Name _ => 0
  | ClassDef _ children => all children
  | FunctionDef _ children => all children
  | Call func args => S (all (func :: args))
  | Attribute value _ => count_calls value
  | Other children => all children
  end.

Definition count_calls_list (l : list node) : nat :=
  foldr (λ c k, count_calls c + k) 0 l.

(** A caller of module [m]: its module-level pseudo-caller or one of its
    functions. *)
Definition local_caller (m s : string) : Prop :=
  s = "module:" +:+ m ∨ PyStr.startswith s ("function:" +:+ m +:+ ".") = true.

(** A callee the analyzer of module [m] can resolve: a function of [m], or
    a function or a dot-free module whose name passes the intra-package
    test. *)
Definition resolved_callee (ROOT_PKG m s : string) : Prop :=
  PyStr.startswith s ("function:" +:+ m +:+ ".") = true
  ∨ ∃ full, PyStr.startswith full ROOT_PKG = true
            ∧ (s = "function:" +:+ full
               ∨ s = "module:" +:+ full ∧ PyStr.contains "." full = false).

(** The fact sets of module [m] with local functions and callers and
    resolved callees only. *)
Definition kinded_facts (ROOT_PKG m : string) (ca : CodeAnalyzer) : Prop :=
  map_Forall (λ _ q, PyStr.startswith q ("function:" +:+ m +:+ ".") = true)
             (func_defs ca)
  ∧ Forall (λ c, local_caller m c.1 ∧ resolved_callee ROOT_PKG m c.2) (calls ca).

(** The attributes a node carries by its name alone: a function node the
    function style and the last component of its name as label, a module
    node the module style and its name as label, a file node the file
    style and some label. *)
Definition canonical_attr (n : string) (attr : gmap string value) : Prop :=
  match PyStr.partition ":" n with
  | Some (kind, name) =>
      if decide (kind = "function")
      then attr = labelled (last_component name) STYLE_function
      else if decide (kind = "module") then attr = labelled name STYLE_module
      else if decide (kind = "file") then ∃ lbl, attr = labelled lbl STYLE_file
      else False
  | None => False
  end.

Definition styled (G : DiGraph) : Prop :=
  ∀ n attr, nodes G !! n = Some attr → canonical_attr n attr.

(** The analyzer state [ca'] holds everything [ca] holds: the recorded
    calls of [ca] in front, its imports, and a binding for each of its
    aliases and function names. *)
Definition grows (ca ca' : CodeAnalyzer) : Prop :=
  calls ca `prefix_of` calls ca'
  ∧ imports ca ⊆ imports ca'
  ∧ dom (aliases ca) ⊆ dom (aliases ca')
  ∧ dom (func_defs ca) ⊆ dom (func_defs ca').

(** * Properties *)

(** ** Strings *)
Section PyStrFacts.
Import PyStr.

Lemma app_cons (a : ascii) (s t : string) : String a s +:+ t = String a (s +:+ t).
Proof. reflexivity. Qed.

Lemma app_nil_r (s : string) : s +:+ "" = s.
Proof. induction s as [|a s IH]; [done|]. by rewrite app_cons, IH. Qed.

Lemma app_assoc (s t u : string) : (s +:+ t) +:+ u = s +:+ t +:+ u.
Proof. induction s as [|a s IH]; [done|]. by rewrite !app_cons, IH. Qed.

Lemma app_length (s t : string) :
  String.length (s +:+ t) = String.length s + String.length t.
Proof. induction s as [|a s IH]; [done|]. rewrite app_cons. simpl. by rewrite IH. Qed.

Lemma rev_app_spec (s t : string) : String.rev_app s t = String.rev s +:+ t.
Proof.
  unfold String.rev. revert t.
  induction s as [|a s IH]; intros t; [done|].
  simpl. rewrite IH, (IH (String a "")). by rewrite app_assoc.
Qed.

Lemma rev_cons (a : ascii) (s : string) :
  String.rev (String a s) = String.rev s +:+ String a "".
Proof. unfold String.rev at 1. simpl. apply rev_app_spec. Qed.

Lemma rev_app_distr (s t : string) :
  String.rev (s +:+ t) = String.rev t +:+ String.rev s.
Proof.
  induction s as [|a s IH].
  - by rewrite app_nil_r.
  - by rewrite app_cons, !rev_cons, IH, app_assoc.
Qed.

Lemma rev_involutive (s : string) : String.rev (String.rev s) = s.
Proof.
  induction s as [|a s IH]; [done|].
  by rewrite rev_cons, rev_app_distr, IH.
Qed.

Lemma split_nonempty (c : ascii) (s : string) : split c s ≠ [].
Proof.
  induction s as [|a s IH]; [done|].
  simpl. case_decide; [done|]. by destruct (split c s).
Qed.

Lemma split_no_sep (c : ascii) (s : string) : contains c s = false → split c s = [s].
Proof.
  induction s as [|a s IH]; [done|].
  simpl. case_decide; [done|]. intros Hc. by rewrite (IH Hc).
Qed.

(** Splitting at a separator splits the list of components. *)
Lemma split_app (c : ascii) (s t : string) :
  split c (s +:+ String c t) = split c s ++ split c t.
Proof.
  induction s as [|a s IH].
  - simpl. by rewrite decide_True.
  - rewrite app_cons. simpl. case_decide; [by rewrite IH|].
    rewrite IH. pose proof (split_nonempty c s).
    by destruct (split c s).
Qed.

Lemma split_join (c : ascii) (l : list string) :
  l ≠ [] → Forall (λ x, contains c x = false) l →
  split c (join (String c "") l) = l.
Proof.
  induction l as [|x l IH]; [done|]. intros _ Hl.
  apply Forall_cons in Hl as [Hx Hl].
  destruct l as [|y l]; [by apply split_no_sep|].
  change (join (String c "") (x :: y :: l))
    with (x +:+ String c "" +:+ join (String c "") (y :: l)).
  rewrite app_cons. change ("" +:+ ?s) with s.
  rewrite split_app, split_no_sep by done. by rewrite IH.
Qed.

Lemma join_cons (sep x : string) (l : list string) :
  l ≠ [] → join sep (x :: l) = x +:+ sep +:+ join sep l.
Proof. by destruct l. Qed.

Lemma join_app (sep : string) (l1 l2 : list string) :
  l1 ≠ [] → l2 ≠ [] →
  join sep (l1 ++ l2) = join sep l1 +:+ sep +:+ join sep l2.
Proof.
  induction l1 as [|x l1 IH]; [done|]. intros _ H2.
  destruct l1 as [|y l1].
  - change ([x] ++ l2) with (x :: l2). by rewrite (join_cons sep x l2 H2).
  - rewrite <- app_comm_cons. rewrite join_cons by done.
    rewrite IH by done. rewrite (join_cons sep x (y :: l1)) by done.
    by rewrite !app_assoc.
Qed.

(** [join] undoes [split]. *)
Lemma join_split (c : ascii) (s : string) : join (String c "") (split c s) = s.
Proof.
  induction s as [|a s IH]; [done|].
  simpl. case_decide as Ha.
  - subst a. rewrite join_cons by apply split_nonempty. by rewrite IH.
  - pose proof (split_nonempty c s).
    destruct (split c s) as [|h [|h' t]] eqn:E; [done|..].
    + simpl in *. by rewrite IH.
    + rewrite join_cons in IH by done. rewrite join_cons by done.
      by rewrite app_cons, IH.
Qed.

Lemma contains_app (c : ascii) (s t : string) :
  contains c (s +:+ t) = contains c s || contains c t.
Proof.
  induction s as [|a s IH]; [done|].
  rewrite app_cons. simpl. by case_decide.
Qed.

Lemma contains_rev (c : ascii) (s : string) : contains c (String.rev s) = contains c s.
Proof.
  induction s as [|a s IH]; [done|].
  rewrite rev_cons, contains_app, IH. simpl.
  case_decide; [apply orb_true_r|apply orb_false_r].
Qed.

Lemma split_components (c : ascii) (s : string) :
  Forall (λ x, contains c x = false) (split c s).
Proof.
  induction s as [|a s IH]; [by repeat constructor|].
  simpl. case_decide as Ha; [by constructor|].
  pose proof (split_nonempty c s).
  destruct (split c s) as [|h t]; [done|].
  apply Forall_cons in IH as [Hh Ht].
  constructor; [|done]. simpl. by rewrite decide_False.
Qed.

Lemma rev_join (c : ascii) (l : list string) :
  String.rev (join (String c "") l)
  = join (String c "") (reverse (String.rev <$> l)).
Proof.
  induction l as [|x l IH]; [done|].
  destruct l as [|y l]; [done|].
  rewrite join_cons by done.
  rewrite !rev_app_distr, IH.
  rewrite (fmap_cons _ x), (reverse_cons _ (String.rev x)).
  rewrite join_app; [rewrite app_assoc; reflexivity| |done].
  rewrite fmap_cons, reverse_cons. intros E.
  apply (f_equal length) in E. rewrite length_app in E. simpl in E. lia.
Qed.

Lemma split_rev (c : ascii) (s : string) :
  split c (String.rev s) = reverse (String.rev <$> split c s).
Proof.
  rewrite <- (join_split c s) at 1. rewrite rev_join.
  apply split_join.
  - intros E. apply (f_equal length) in E.
    rewrite length_reverse, length_fmap in E.
    pose proof (split_nonempty c s). by destruct (split c s).
  - apply Forall_reverse, Forall_fmap.
    eapply Forall_impl; [apply split_components|].
    intros x Hx. simpl. by rewrite contains_rev.
Qed.

Lemma partition_None (c : ascii) (s : string) :
  partition c s = None → contains c s = false.
Proof.
  induction s as [|a s IH]; [done|].
  simpl. case_decide; [done|].
  destruct (partition c s) as [[h t]|]; [done|]. auto.
Qed.

Lemma partition_Some (c : ascii) (s h t : string) :
  partition c s = Some (h, t) → s = h +:+ String c t ∧ contains c h = false.
Proof.
  revert h. induction s as [|a s IH]; intros h; [done|].
  simpl. case_decide as Ha.
  - intros [= <- <-]. by subst a.
  - destruct (partition c s) as [[h' t']|]; [|done].
    intros [= <- <-]. destruct (IH h' eq_refl) as [-> Hh].
    split; [done|]. simpl. by rewrite decide_False.
Qed.

Lemma partition_app (c : ascii) (h t : string) :
  contains c h = false → partition c (h +:+ String c t) = Some (h, t).
Proof.
  induction h as [|a h IH].
  - intros _. simpl. by rewrite decide_True.
  - simpl. case_decide; [done|]. intros Hh. by rewrite IH.
Qed.

Lemma partition_is_Some (c : ascii) (s : string) :
  is_Some (partition c s) ↔ contains c s = true.
Proof.
  split.
  - intros [[h t] E]. apply partition_Some in E as [-> _].
    rewrite contains_app. simpl. rewrite decide_True by done. apply orb_true_r.
  - intros Hc. destruct (partition c s) eqn:E; [done|].
    apply partition_None in E. congruence.
Qed.

(** [split] with a bound on the number of cuts, by the full [split]. *)
Lemma lsplit_spec (c : ascii) (k : nat) (s : string) :
  lsplit c k s =
    if decide (k < length (split c s))
    then take k (split c s) ++ [join (String c "") (drop k (split c s))]
    else split c s.
Proof.
  revert s. induction k as [|k IH]; intros s.
  - simpl. rewrite decide_True.
    + by rewrite drop_0, join_split.
    + pose proof (split_nonempty c s). destruct (split c s); [done|simpl; lia].
  - simpl. destruct (partition c s) as [[h t]|] eqn:E.
    + apply partition_Some in E as [-> Hh].
      rewrite split_app, (split_no_sep _ _ Hh). simpl.
      rewrite IH. repeat case_decide; try lia; done.
    + apply partition_None in E. by rewrite (split_no_sep _ _ E).
Qed.

(** [rsplit] by the full [split]: with more components than cuts, the
    leading components stay joined; otherwise every dot is cut. *)
Lemma rsplit_spec (c : ascii) (k : nat) (s : string) :
  rsplit c k s =
    let cs := split c s in
    if decide (k < length cs)
    then join (String c "") (take (length cs - k) cs) :: drop (length cs - k) cs
    else cs.
Proof.
  unfold rsplit. rewrite lsplit_spec, split_rev. simpl.
  rewrite length_reverse, length_fmap.
  assert (Hrr : ∀ l : list string,
             String.rev <$> reverse (String.rev <$> l) = reverse l).
  { intros l. rewrite fmap_reverse, <- list_fmap_compose.
    f_equal. rewrite <- (list_fmap_id l) at 2.
    apply list_fmap_ext. intros _ x _. apply rev_involutive. }
  case_decide.
  - rewrite fmap_app, reverse_app. simpl.
    rewrite drop_reverse, take_reverse, !length_fmap, rev_join.
    rewrite <- fmap_take, <- fmap_drop, !Hrr.
    by rewrite !reverse_involutive.
  - by rewrite Hrr, reverse_involutive.
Qed.

End PyStrFacts.

(** ** Module Namer *)
Section NamerFacts.
Import PyStr.

Lemma rfind_None (c : ascii) (s : string) : contains c s = false → rfind c s = None.
Proof.
  induction s as [|a s IH]; [done|].
  simpl. case_decide; [done|]. intros Hc. by rewrite (IH Hc).
Qed.

(** The last dot of [stem.ext] is the one before a dot-free [ext]. *)
Lemma rfind_ext (c : ascii) (stem ext : string) :
  contains c ext = false →
  rfind c (stem +:+ String c ext) = Some (String.length stem).
Proof.
  intros He. induction stem as [|a stem IH].
  - simpl. rewrite (rfind_None _ _ He). by rewrite decide_True.
  - rewrite app_cons. simpl. by rewrite IH.
Qed.

Lemma prefix_of_app (s t : string) : prefix_of (String.length s) (s +:+ t) = s.
Proof.
  induction s as [|a s IH]; [done|]. rewrite app_cons. simpl. by rewrite IH.
Qed.

Lemma strip_suffix_ext (stem ext : string) :
  stem ≠ "" → ext ≠ "" → contains "." ext = false →
  strip_suffix (stem +:+ "." +:+ ext) = stem.
Proof.
  intros Hs He Hd. unfold strip_suffix.
  change (stem +:+ "." +:+ ext) with (stem +:+ String "." ext).
  rewrite rfind_ext by done. rewrite decide_True.
  - apply prefix_of_app.
  - rewrite app_length. simpl.
    destruct stem; [done|]. destruct ext; [done|]. simpl. lia.
Qed.

Lemma relative_to_app (root rel : Path) : relative_to (root ++ rel) root = Some rel.
Proof.
  induction root as [|r root IH]; [by destruct rel|].
  simpl. by rewrite decide_True.
Qed.

Lemma with_suffix_empty_snoc (dirs : Path) (name : string) :
  strip_suffix name ≠ "." →
  with_suffix_empty (dirs ++ [name]) = Some (dirs ++ [strip_suffix name]).
Proof.
  intros Hn. induction dirs as [|d dirs IH].
  - simpl. by rewrite decide_False.
  - simpl. rewrite IH. by destruct dirs.
Qed.

End NamerFacts.

Example module_name_file :
  module_name "app" ["/"; "proj"; "app"; "core"; "util.py"] ["/"; "proj"; "app"]
  = Some "app.core.util".
Proof. reflexivity. Qed.

Example module_name_outside :
  module_name "app" ["/"; "tmp"; "x.py"] ["/"; "proj"; "app"] = None.
Proof. reflexivity. Qed.

(** C8, as amended. For every file [dirs/stem.ext] under the root, the
    Module Namer returns the root package's name followed by the dotted
    form of the relative path with the extension stripped; and when no
    component of that path contains a dot of its own, the trailing dotted
    components of the name are exactly the components of the path. *)
Theorem module_name_dotted (ROOT_PKG : string) (root dirs : Path) (stem ext : string) :
  stem ≠ "" → stem ≠ "." → ext ≠ "" → PyStr.contains "." ext = false →
  module_name ROOT_PKG (root ++ dirs ++ [stem +:+ "." +:+ ext]) root
    = Some (ROOT_PKG +:+ "." +:+ PyStr.join "." (dirs ++ [stem]))
  ∧ (Forall (λ c, PyStr.contains "." c = false) (dirs ++ [stem]) →
     PyStr.split "." (ROOT_PKG +:+ "." +:+ PyStr.join "." (dirs ++ [stem]))
       = PyStr.split "." ROOT_PKG ++ dirs ++ [stem]).
Proof.
  intros Hs Hdot He Hd.
  pose proof (strip_suffix_ext stem ext Hs He Hd) as Hstrip.
  split.
  - unfold module_name. rewrite relative_to_app. simpl.
    rewrite with_suffix_empty_snoc by (by rewrite Hstrip).
    simpl. by rewrite Hstrip.
  - intros Hall.
    change (ROOT_PKG +:+ "." +:+ ?s) with (ROOT_PKG +:+ String "." s).
    rewrite split_app. f_equal.
    apply (split_join "."); [|done].
    by destruct dirs.
Qed.

Lemma module_name_dotted_witness :
  module_name "app" (["/"; "proj"; "app"] ++ ["core"] ++ ["util" +:+ "." +:+ "py"])
              ["/"; "proj"; "app"]
    = Some ("app" +:+ "." +:+ PyStr.join "." (["core"] ++ ["util"]))
  ∧ (Forall (λ c, PyStr.contains "." c = false) (["core"] ++ ["util"]) →
     PyStr.split "." ("app" +:+ "." +:+ PyStr.join "." (["core"] ++ ["util"]))
       = PyStr.split "." "app" ++ ["core"] ++ ["util"]).
Proof.
  apply (module_name_dotted "app" ["/"; "proj"; "app"] ["core"] "util" "py");
    [discriminate | discriminate | discriminate | reflexivity].
Defined.

(** C8, as stated, fails on a directory whose name has a dot: the file
    [v1.2/a.py] under the root [/proj/app] is named [app.v1.2.a], whose
    trailing dotted components are [2] and [a], not [v1.2] and [a]. *)
Lemma module_name_dotted_directory :
  module_name "app" ["/"; "proj"; "app"; "v1.2"; "a.py"] ["/"; "proj"; "app"]
    = Some "app.v1.2.a"
  ∧ relative_to ["/"; "proj"; "app"; "v1.2"; "a.py"] ["/"; "proj"; "app"]
    = Some ["v1.2"; "a.py"]
  ∧ ¬ ∃ pre, PyStr.split "." "app.v1.2.a" = pre ++ ["v1.2"; "a"].
Proof.
  split; [reflexivity|]. split; [reflexivity|].
  intros [pre E]. vm_compute in E.
  destruct pre as [|? [|? [|? [|? [|? pre]]]]]; discriminate.
Qed.

(** ** Per-File Analyzer: imports *)

Section ImportFacts.
Variable ROOT_PKG : string.

Lemma from_alias_aliases (module : string) (ca : CodeAnalyzer) (a : alias) :
  aliases (visit_ImportFrom_alias ROOT_PKG module ca a)
  = if decide (alias_name a = "*") then aliases ca
    else <[local_name a := from_full module (alias_name a)]> (aliases ca).
Proof.
  unfold visit_ImportFrom_alias. case_decide; [done|].
  by destruct (PyStr.startswith _ _).
Qed.

Lemma from_alias_imports (module : string) (ca : CodeAnalyzer) (a : alias) :
  imports (visit_ImportFrom_alias ROOT_PKG module ca a)
  = if decide (alias_name a = "*") then imports ca
    else if PyStr.startswith (from_full module (alias_name a)) ROOT_PKG
         then {[module]} ∪ imports ca else imports ca.
Proof.
  unfold visit_ImportFrom_alias. case_decide; [done|].
  by destruct (PyStr.startswith _ _).
Qed.

Lemma from_alias_modname (module : string) (ca : CodeAnalyzer) (a : alias) :
  modname (visit_ImportFrom_alias ROOT_PKG module ca a) = modname ca.
Proof.
  unfold visit_ImportFrom_alias. case_decide; [done|].
  by destruct (PyStr.startswith _ _).
Qed.

(** Later names of the statement that bind other local names leave a
    binding alone, and the import set only grows. *)
Lemma from_aliases_keep (module asn : string) (names : list alias) (ca : CodeAnalyzer) :
  Forall (λ b, alias_name b = "*" ∨ local_name b ≠ asn) names →
  aliases (foldl (visit_ImportFrom_alias ROOT_PKG module) ca names) !! asn
  = aliases ca !! asn.
Proof.
  revert ca. induction names as [|b names IH]; intros ca Hn; [done|].
  apply Forall_cons in Hn as [Hb Hn]. simpl. rewrite IH by done.
  rewrite from_alias_aliases. case_decide; [done|].
  destruct Hb as [?|Hb]; [done|]. by rewrite lookup_insert_ne.
Qed.

Lemma from_aliases_imports_mono (module : string) (names : list alias) (ca : CodeAnalyzer) :
  imports ca ⊆ imports (foldl (visit_ImportFrom_alias ROOT_PKG module) ca names).
Proof.
  revert ca. induction names as [|b names IH]; intros ca; [done|].
  simpl. etrans; [|apply IH]. rewrite from_alias_imports.
  case_decide; [done|]. destruct (PyStr.startswith _ _); set_solver.
Qed.

End ImportFacts.

Example from_module_absolute : from_module "pkg.a.b" (Some "pkg.c") 0 = "pkg.c".
Proof. reflexivity. Qed.

Example from_module_two_dots : from_module "pkg.a.b" (Some "c") 2 = "pkg.c".
Proof. reflexivity. Qed.

(** C6, as amended. For a from-import with [k >= 1] leading dots in a
    module [M] that has more than [k] dotted components, the module the
    import resolves against is [M] without its last [k] components, with
    the stated module appended when there is one; and [from . import sub]
    in [pkg.a.b] binds [sub] to [pkg.a.sub]. *)
Theorem from_module_relative (M : string) (module : option string) (k : nat) :
  0 < k → k < length (PyStr.split "." M) →
  from_module M module k
    = with_module_suffix
        (PyStr.join "." (take (length (PyStr.split "." M) - k) (PyStr.split "." M)))
        module
  ∧ ∀ ROOT_PKG,
      aliases (visit ROOT_PKG (ImportFrom None [Alias "sub" None] 1) (init "pkg.a.b"))
        !! "sub" = Some "pkg.a.sub".
Proof.
  intros Hk Hlen. split.
  - unfold from_module. destruct k as [|k]; [lia|].
    rewrite (rsplit_spec "."). simpl. rewrite decide_True by done. simpl.
    unfold with_module_suffix, PyStr.or_else.
    destruct module as [[|a s]|]; done.
  - intros ROOT_PKG. cbn [visit]. unfold visit_ImportFrom. cbn [foldl].
    rewrite from_alias_aliases. rewrite decide_False by done.
    apply lookup_insert_eq.
Qed.

Lemma from_module_relative_witness :
  from_module "pkg.a.b" (Some "c") 1
    = with_module_suffix
        (PyStr.join "." (take (length (PyStr.split "." "pkg.a.b") - 1)
                              (PyStr.split "." "pkg.a.b")))
        (Some "c")
  ∧ ∀ ROOT_PKG,
      aliases (visit ROOT_PKG (ImportFrom None [Alias "sub" None] 1) (init "pkg.a.b"))
        !! "sub" = Some "pkg.a.sub".
Proof.
  apply (from_module_relative "pkg.a.b" (Some "c") 1); simpl; lia.
Defined.

(** C6, as stated, fails when the import has as many dots as the module
    has components: [from .. import sub] in [pkg.a] resolves against
    [pkg], where trimming two components of [pkg.a] leaves nothing. *)
Lemma from_module_too_many_dots :
  from_module "pkg.a" None 2 = "pkg"
  ∧ with_module_suffix
      (PyStr.join "." (take (length (PyStr.split "." "pkg.a") - 2)
                            (PyStr.split "." "pkg.a")))
      None = ""
  ∧ ∀ ROOT_PKG,
      aliases (visit ROOT_PKG (ImportFrom None [Alias "sub" None] 2) (init "pkg.a"))
        !! "sub" = Some "pkg.sub".
Proof.
  split; [reflexivity|]. split; [reflexivity|].
  intros ROOT_PKG. cbn [visit]. unfold visit_ImportFrom. cbn [foldl].
  rewrite from_alias_aliases. rewrite decide_False by done.
  apply lookup_insert_eq.
Qed.

(** C4, as amended. After a from-import is analyzed, every imported name
    other than the wildcard, whose local name no later name of the same
    statement binds again, is bound in the alias table to its fully
    resolved qualified name (the resolved module joined with the imported
    name); and when that qualified name is intra-package, the resolved
    module is in the file's import set. *)
Theorem from_import_recorded (ROOT_PKG : string) (module : option string)
    (level : nat) (pre post : list alias) (a : alias) (ca : CodeAnalyzer) :
  alias_name a ≠ "*" →
  Forall (λ b, alias_name b = "*" ∨ local_name b ≠ local_name a) post →
  let ca' := visit ROOT_PKG (ImportFrom module (pre ++ a :: post) level) ca in
  let resolved := from_module (modname ca) module level in
  let full := from_full resolved (alias_name a) in
  aliases ca' !! local_name a = Some full
  ∧ (PyStr.startswith full ROOT_PKG = true → resolved ∈ imports ca').
Proof.
  intros Hstar Hpost ca' resolved full. subst ca'.
  cbn [visit]. unfold visit_ImportFrom. fold resolved.
  rewrite foldl_app. cbn [foldl].
  set (ca1 := foldl _ ca pre). split.
  - rewrite from_aliases_keep by done.
    rewrite from_alias_aliases, decide_False by done.
    apply lookup_insert_eq.
  - intros Hin. apply from_aliases_imports_mono.
    rewrite from_alias_imports, decide_False by done.
    fold full. rewrite Hin. set_solver.
Qed.

Lemma from_import_recorded_witness :
  let ca' := visit "pkg" (ImportFrom (Some "pkg.sub")
                            ([Alias "g" None] ++ Alias "fn" (Some "f") :: [Alias "*" None]) 0)
               (init "pkg.main") in
  aliases ca' !! "f" = Some "pkg.sub.fn"
  ∧ (PyStr.startswith "pkg.sub.fn" "pkg" = true → "pkg.sub" ∈ imports ca').
Proof.
  apply (from_import_recorded "pkg" (Some "pkg.sub") 0
           [Alias "g" None] [Alias "*" None] (Alias "fn" (Some "f")) (init "pkg.main")).
  - discriminate.
  - repeat constructor.
Defined.

(** C4, as stated, fails on the import set: after [from pkg.sub import fn]
    under the root package [pkg], the alias table binds [fn] to the
    intra-package name [pkg.sub.fn], and the import set holds the module
    [pkg.sub], not [pkg.sub.fn]. *)
Lemma from_import_adds_module :
  let ca' := visit "pkg" (ImportFrom (Some "pkg.sub") [Alias "fn" None] 0)
               (init "pkg.main") in
  aliases ca' !! "fn" = Some "pkg.sub.fn"
  ∧ PyStr.startswith "pkg.sub.fn" "pkg" = true
  ∧ imports ca' = {["pkg.sub"]}
  ∧ "pkg.sub.fn" ∉ imports ca'.
Proof.
  assert (E : imports (visit "pkg" (ImportFrom (Some "pkg.sub") [Alias "fn" None] 0)
                         (init "pkg.main")) = {["pkg.sub"]}).
  { cbn. apply union_empty_r_L. }
  cbv zeta. split; [reflexivity|]. split; [reflexivity|]. split; [exact E|].
  rewrite E. intros Hin%elem_of_singleton. discriminate.
Qed.

(** ** Per-File Analyzer: traversal *)

Section VisitFacts.
Variable ROOT_PKG : string.

Lemma visit_list_nil (ca : CodeAnalyzer) : visit_list ROOT_PKG [] ca = ca.
Proof. reflexivity. Qed.

Lemma visit_list_cons (c : node) (l : list node) (ca : CodeAnalyzer) :
  visit_list ROOT_PKG (c :: l) ca = visit_list ROOT_PKG l (visit ROOT_PKG c ca).
Proof. reflexivity. Qed.

Lemma visit_list_app (l1 l2 : list node) (ca : CodeAnalyzer) :
  visit_list ROOT_PKG (l1 ++ l2) ca
  = visit_list ROOT_PKG l2 (visit_list ROOT_PKG l1 ca).
Proof. apply foldl_app. Qed.

(** The local loop of [visit] is [visit_list]. *)
Lemma generic_visit_eq (l : list node) (ca : CodeAnalyzer) :
  (fix go (l : list node) (ca : CodeAnalyzer) {struct l} : CodeAnalyzer :=
     match l with
     | [] => ca
     | c :: l' => go l' (visit ROOT_PKG c ca)
     end) l ca = visit_list ROOT_PKG l ca.
Proof. revert ca. induction l as [|c l IH]; intros ca; [done|]. apply IH. Qed.

Lemma visit_ClassDef (name : string) (children : list node) (ca : CodeAnalyzer) :
  visit ROOT_PKG (ClassDef name children) ca
  = set_current_class (current_class ca)
      (visit_list ROOT_PKG children (set_current_class (Some name) ca)).
Proof. cbn [visit]. by rewrite generic_visit_eq. Qed.

Lemma visit_FunctionDef (name : string) (children : list node) (ca : CodeAnalyzer) :
  visit ROOT_PKG (FunctionDef name children) ca
  = let qual := func_qual (modname ca) (current_class ca) name in
    set_current_fn (current_fn ca)
      (visit_list ROOT_PKG children
         (set_current_fn (Some qual) (define_func name qual ca))).
Proof. cbn [visit]. by rewrite generic_visit_eq. Qed.

Lemma visit_Call (func : node) (args : list node) (ca : CodeAnalyzer) :
  visit ROOT_PKG (Call func args) ca
  = visit_list ROOT_PKG (func :: args) (record_call ROOT_PKG func ca).
Proof. cbn [visit]. by rewrite generic_visit_eq. Qed.

Lemma visit_Other (children : list node) (ca : CodeAnalyzer) :
  visit ROOT_PKG (Other children) ca = visit_list ROOT_PKG children ca.
Proof. cbn [visit]. by rewrite generic_visit_eq. Qed.

Lemma registrations_all_eq (m : string) (cls : option string) (l : list node) :
  (fix go (l : list node) {struct l} : list (string * string) :=
     match l with
     | [] => []
     | c :: l' => registrations m cls c ++ go l'
     end) l = registrations_list m cls l.
Proof. induction l as [|c l IH]; [done|]. simpl. by rewrite IH. Qed.

Lemma registrations_ClassDef (m : string) (cls : option string)
    (name : string) (children : list node) :
  registrations m cls (ClassDef name children)
  = registrations_list m (Some name) children.
Proof. cbn [registrations]. by rewrite registrations_all_eq. Qed.

Lemma registrations_FunctionDef (m : string) (cls : option string)
    (name : string) (children : list node) :
  registrations m cls (FunctionDef name children)
  = (name, func_qual m cls name) :: registrations_list m cls children.
Proof. cbn [registrations]. by rewrite registrations_all_eq. Qed.

Lemma registrations_Call (m : string) (cls : option string)
    (func : node) (args : list node) :
  registrations m cls (Call func args)
  = registrations_list m cls (func :: args).
Proof. cbn [registrations]. by rewrite registrations_all_eq. Qed.

Lemma registrations_Other (m : string) (cls : option string) (children : list node) :
  registrations m cls (Other children) = registrations_list m cls children.
Proof. cbn [registrations]. by rewrite registrations_all_eq. Qed.

(** What an import statement and a call site leave alone. *)
Lemma visit_Import_frame (names : list alias) (ca : CodeAnalyzer) :
  let ca' := visit_Import ROOT_PKG names ca in
  modname ca' = modname ca ∧ current_fn ca' = current_fn ca
  ∧ current_class ca' = current_class ca ∧ func_defs ca' = func_defs ca
  ∧ calls ca' = calls ca.
Proof.
  unfold visit_Import. revert ca.
  induction names as [|a names IH]; intros ca; [done|].
  simpl. destruct (IH (visit_Import_alias ROOT_PKG ca a)) as (-> & -> & -> & -> & ->).
  unfold visit_Import_alias. by destruct (PyStr.startswith _ _).
Qed.

Lemma visit_ImportFrom_frame (module : option string) (names : list alias)
    (level : nat) (ca : CodeAnalyzer) :
  let ca' := visit_ImportFrom ROOT_PKG module names level ca in
  modname ca' = modname ca ∧ current_fn ca' = current_fn ca
  ∧ current_class ca' = current_class ca ∧ func_defs ca' = func_defs ca
  ∧ calls ca' = calls ca.
Proof.
  unfold visit_ImportFrom. generalize (from_module (modname ca) module level).
  intros m. revert ca.
  induction names as [|a names IH]; intros ca; [done|].
  simpl. destruct (IH (visit_ImportFrom_alias ROOT_PKG m ca a)) as (-> & -> & -> & -> & ->).
  unfold visit_ImportFrom_alias. case_decide; [done|].
  by destruct (PyStr.startswith _ _).
Qed.

Lemma record_call_frame (func : node) (ca : CodeAnalyzer) :
  let ca' := record_call ROOT_PKG func ca in
  modname ca' = modname ca ∧ current_fn ca' = current_fn ca
  ∧ current_class ca' = current_class ca ∧ func_defs ca' = func_defs ca
  ∧ aliases ca' = aliases ca ∧ imports ca' = imports ca.
Proof.
  unfold record_call. destruct (resolve_callee _ _ _) as [q|]; [|done].
  by destruct (PyStr.truthy q).
Qed.

Lemma visit_list_context (l : list node) :
  Forall (λ c, ∀ ca, same_context ca (visit ROOT_PKG c ca)) l →
  ∀ ca, same_context ca (visit_list ROOT_PKG l ca).
Proof.
  induction 1 as [|c l Hc _ IH]; intros ca; [done|].
  rewrite visit_list_cons. unfold same_context in *.
  destruct (IH (visit ROOT_PKG c ca)) as (-> & -> & ->). apply Hc.
Qed.

Lemma visit_context (n : node) (ca : CodeAnalyzer) :
  same_context ca (visit ROOT_PKG n ca).
Proof.
  revert ca. induction n as [names|module names level|name children H|name children H
                  |func args IHn H|id|value attr IHn|children H]
    using node_induction; intros ca; unfold same_context in *.
  - destruct (visit_Import_frame names ca) as (? & ? & ? & _). done.
  - destruct (visit_ImportFrom_frame module names level ca) as (? & ? & ? & _). done.
  - rewrite visit_ClassDef.
    by destruct (visit_list_context children H (set_current_class (Some name) ca))
      as (? & ? & ?).
  - rewrite visit_FunctionDef. cbv zeta.
    by destruct (visit_list_context children H
      (set_current_fn (Some (func_qual (modname ca) (current_class ca) name))
         (define_func name (func_qual (modname ca) (current_class ca) name) ca)))
      as (? & ? & ?).
  - rewrite visit_Call.
    destruct (visit_list_context (func :: args) (List.Forall_cons _ _ _ IHn H)
                (record_call ROOT_PKG func ca)) as (-> & -> & ->).
    by destruct (record_call_frame func ca) as (? & ? & ? & _).
  - done.
  - apply IHn.
  - rewrite visit_Other. by apply visit_list_context.
Qed.

(** The symbol table after a traversal: the registrations of the tree,
    applied in traversal order to the table before it. *)
Lemma apply_registrations_app (r1 r2 : list (string * string)) (t : gmap string string) :
  apply_registrations (r1 ++ r2) t = apply_registrations r2 (apply_registrations r1 t).
Proof. apply foldl_app. Qed.

Lemma visit_list_func_defs (l : list node) :
  Forall (λ c, ∀ ca, func_defs (visit ROOT_PKG c ca)
            = apply_registrations
                (registrations (modname ca) (current_class ca) c) (func_defs ca)) l →
  ∀ ca, func_defs (visit_list ROOT_PKG l ca)
        = apply_registrations
            (registrations_list (modname ca) (current_class ca) l) (func_defs ca).
Proof.
  induction 1 as [|c l Hc _ IH]; intros ca; [done|].
  rewrite visit_list_cons, IH.
  destruct (visit_context c ca) as (-> & _ & ->).
  unfold registrations_list. simpl. by rewrite apply_registrations_app, Hc.
Qed.

Lemma visit_func_defs (n : node) (ca : CodeAnalyzer) :
  func_defs (visit ROOT_PKG n ca)
  = apply_registrations (registrations (modname ca) (current_class ca) n)
      (func_defs ca).
Proof.
  revert ca. induction n as [names|module names level|name children H|name children H
                  |func args IHn H|id|value attr IHn|children H]
    using node_induction; intros ca.
  - by destruct (visit_Import_frame names ca) as (_ & _ & _ & ? & _).
  - by destruct (visit_ImportFrom_frame module names level ca) as (_ & _ & _ & ? & _).
  - rewrite visit_ClassDef, registrations_ClassDef. cbn [func_defs set_current_class].
    by rewrite (visit_list_func_defs children H).
  - rewrite visit_FunctionDef, registrations_FunctionDef. cbv zeta.
    cbn [func_defs set_current_fn].
    by rewrite (visit_list_func_defs children H).
  - rewrite visit_Call, registrations_Call.
    rewrite (visit_list_func_defs (func :: args) (List.Forall_cons _ _ _ IHn H)).
    by destruct (record_call_frame func ca) as (-> & _ & -> & -> & _).
  - done.
  - apply IHn.
  - rewrite visit_Other, registrations_Other. by apply visit_list_func_defs.
Qed.

(** Looking a name up after a list of registrations: the last one under
    that name wins. *)
Lemma apply_registrations_lookup (regs : list (string * string))
    (t : gmap string string) (name : string) :
  apply_registrations regs t !! name
  = match last_registered name regs with
    | Some q => Some q
    | None => t !! name
    end.
Proof.
  revert t. induction regs as [|[k q] regs IH]; intros t; [done|].
  unfold apply_registrations in *. simpl. rewrite IH.
  destruct (last_registered name regs); [done|].
  case_decide; [subst; apply lookup_insert_eq | by apply lookup_insert_ne].
Qed.

End VisitFacts.

(** ** Per-File Analyzer: call sites *)

Section CallFacts.
Variable ROOT_PKG : string.

Lemma visit_Call_Name (name : string) (args : list node) (ca : CodeAnalyzer) :
  visit ROOT_PKG (Call (Name name) args) ca
  = visit_list ROOT_PKG args (record_call ROOT_PKG (Name name) ca).
Proof. by rewrite visit_Call, visit_list_cons. Qed.

Lemma visit_Call_Attribute (id attr : string) (args : list node) (ca : CodeAnalyzer) :
  visit ROOT_PKG (Call (Attribute (Name id) attr) args) ca
  = visit_list ROOT_PKG args (record_call ROOT_PKG (Attribute (Name id) attr) ca).
Proof. by rewrite visit_Call, visit_list_cons. Qed.

End CallFacts.

Example nested_class_function :
  registrations "pkg.a" None
    (Other [ClassDef "X" [FunctionDef "run" [FunctionDef "inner" []]];
            FunctionDef "run" []])
  = [("run", "function:pkg.a.X.run"); ("inner", "function:pkg.a.X.inner");
     ("run", "function:pkg.a.run")].
Proof. reflexivity. Qed.

(** C5. The symbol table after a traversal holds, for each simple name,
    the qualified name registered last in traversal order; a call to a bare
    name the table knows records a call pair whose callee is that
    qualified name; and with [class X: def run()] and [class Y: def run()]
    in [pkg.a], a later call [run()] resolves to the method of [Y]. *)
Theorem last_definition_wins (ROOT_PKG : string) :
  (∀ (t : node) (ca : CodeAnalyzer) (name : string),
     func_defs (visit ROOT_PKG t ca) !! name
     = match last_registered name
               (registrations (modname ca) (current_class ca) t) with
       | Some q => Some q
       | None => func_defs ca !! name
       end)
  ∧ (∀ (ca : CodeAnalyzer) (name q : string) (args : list node),
       func_defs ca !! name = Some q → PyStr.truthy q = true →
       visit ROOT_PKG (Call (Name name) args) ca
       = visit_list ROOT_PKG args (append_call (caller_of ca, q) ca))
  ∧ calls (analyze ROOT_PKG "pkg.a"
             (Other [ClassDef "X" [FunctionDef "run" []];
                     ClassDef "Y" [FunctionDef "run" []];
                     Other [Call (Name "run") []]]))
    = [("module:pkg.a", "function:pkg.a.Y.run")].
Proof.
  split; [|split].
  - intros t ca name. by rewrite visit_func_defs, apply_registrations_lookup.
  - intros ca name q args Hq Ht. rewrite visit_Call_Name.
    unfold record_call. cbn [resolve_callee]. by rewrite Hq, Ht.
  - reflexivity.
Qed.

Lemma last_definition_wins_witness :
  func_defs (visit "pkg" (Other [ClassDef "X" [FunctionDef "run" []];
                                 ClassDef "Y" [FunctionDef "run" []]])
               (init "pkg.a")) !! "run" = Some "function:pkg.a.Y.run"
  ∧ visit "pkg" (Call (Name "run") [])
      (define_func "run" "function:pkg.a.Y.run" (init "pkg.a"))
    = append_call ("module:pkg.a", "function:pkg.a.Y.run")
        (define_func "run" "function:pkg.a.Y.run" (init "pkg.a")).
Proof.
  destruct (last_definition_wins "pkg") as (Htable & Hcall & _). split.
  - rewrite Htable. reflexivity.
  - apply (Hcall (define_func "run" "function:pkg.a.Y.run" (init "pkg.a"))
             "run" "function:pkg.a.Y.run" []); reflexivity.
Defined.

(** C7. A call [a.attr(...)] through a bare name [a] that an import binds
    to [T] records the pair from the current caller to [function:T.attr]
    when [T] is intra-package, and records nothing when it is not; so
    [s.fn()] after [import pkg.sub as s] in [pkg.other] has the callee
    [function:pkg.sub.fn], and [os.getcwd()] after [import os] has none.
    A call of such a bare name itself records nothing either, unless the
    file defines a function of that name. *)
Theorem attribute_call_resolution (ROOT_PKG : string) :
  (∀ (a attr T : string) (args : list node) (ca : CodeAnalyzer),
     aliases ca !! a = Some T → PyStr.startswith T ROOT_PKG = true →
     visit ROOT_PKG (Call (Attribute (Name a) attr) args) ca
     = visit_list ROOT_PKG args
         (append_call (caller_of ca, "function:" +:+ T +:+ "." +:+ attr) ca))
  ∧ (∀ (a attr T : string) (args : list node) (ca : CodeAnalyzer),
       aliases ca !! a = Some T → PyStr.startswith T ROOT_PKG = false →
       visit ROOT_PKG (Call (Attribute (Name a) attr) args) ca
       = visit_list ROOT_PKG args ca)
  ∧ (∀ (a T : string) (args : list node) (ca : CodeAnalyzer),
       aliases ca !! a = Some T → PyStr.startswith T ROOT_PKG = false →
       func_defs ca !! a = None →
       visit ROOT_PKG (Call (Name a) args) ca = visit_list ROOT_PKG args ca)
  ∧ calls (analyze "pkg" "pkg.other"
             (Other [Import [Alias "pkg.sub" (Some "s")];
                     Other [Call (Attribute (Name "s") "fn") []]]))
    = [("module:pkg.other", "function:pkg.sub.fn")]
  ∧ calls (analyze "pkg" "pkg.other"
             (Other [Import [Alias "os" None];
                     Other [Call (Attribute (Name "os") "getcwd") []]]))
    = [].
Proof.
  split; [|split; [|split; [|split]]].
  - intros a attr T args ca Ha HT. rewrite visit_Call_Attribute.
    unfold record_call. cbn [resolve_callee]. by rewrite Ha, HT.
  - intros a attr T args ca Ha HT. rewrite visit_Call_Attribute.
    unfold record_call. cbn [resolve_callee]. by rewrite Ha, HT.
  - intros a T args ca Ha HT Hdef. rewrite visit_Call_Name.
    unfold record_call. cbn [resolve_callee]. by rewrite Hdef, Ha, HT.
  - reflexivity.
  - reflexivity.
Qed.

Lemma attribute_call_resolution_witness :
  visit "pkg" (Call (Attribute (Name "s") "fn") []) (bind_alias "s" "pkg.sub" (init "pkg.other"))
  = append_call ("module:pkg.other", "function:pkg.sub.fn")
      (bind_alias "s" "pkg.sub" (init "pkg.other"))
  ∧ visit "pkg" (Call (Attribute (Name "os") "getcwd") []) (bind_alias "os" "os" (init "pkg.other"))
    = bind_alias "os" "os" (init "pkg.other").
Proof.
  destruct (attribute_call_resolution "pkg") as (Hin & Hout & _ & _). split.
  - apply (Hin "s" "fn" "pkg.sub" [] (bind_alias "s" "pkg.sub" (init "pkg.other")));
      reflexivity.
  - apply (Hout "os" "getcwd" "os" [] (bind_alias "os" "os" (init "pkg.other")));
      reflexivity.
Defined.

Lemma startswith_app (p s : string) : PyStr.startswith (p +:+ s) p = true.
Proof.
  induction p as [|c p IH]; [reflexivity|].
  rewrite app_cons. simpl. by rewrite decide_True.
Qed.

(** C10. The intra-package test is a prefix test on characters: every
    name that extends the root package's name, dot or no dot, passes it.
    Under the root package [app], [import apple] puts [apple] in the import
    set, and the calls [apple.f()] and [apple()] become call pairs. *)
Theorem intra_package_is_raw_prefix :
  (∀ ROOT_PKG rest : string, PyStr.startswith (ROOT_PKG +:+ rest) ROOT_PKG = true)
  ∧ (∀ (ROOT_PKG rest : string) (ca : CodeAnalyzer),
       ROOT_PKG +:+ rest
       ∈ imports (visit ROOT_PKG (Import [Alias (ROOT_PKG +:+ rest) None]) ca))
  ∧ PyStr.contains "." "apple" = false
  ∧ let ca := analyze "app" "app.main"
                (Other [Import [Alias "apple" None];
                        Other [Call (Attribute (Name "apple") "f") []];
                        Other [Call (Name "apple") []]]) in
    imports ca = {["apple"]}
    ∧ calls ca = [("module:app.main", "function:apple.f");
                  ("module:app.main", "module:apple")].
Proof.
  split; [|split; [|split; [|split]]].
  - intros. apply startswith_app.
  - intros ROOT_PKG rest ca. cbn [visit]. unfold visit_Import. cbn [foldl].
    unfold visit_Import_alias. cbn [alias_name].
    rewrite startswith_app. cbn [imports add_import]. set_solver.
  - reflexivity.
  - cbn. apply union_empty_r_L.
  - reflexivity.
Qed.

(** ** Directed graphs *)

Section GraphFacts.
Implicit Types (G : DiGraph) (n u v : string) (attr : gmap string value).

Lemma has_node_true n G : nx.has_node n G = true ↔ n ∈ dom (nodes G).
Proof. unfold nx.has_node. rewrite bool_decide_eq_true. by rewrite elem_of_dom. Qed.

Lemma has_node_false n G : nx.has_node n G = false ↔ nodes G !! n = None.
Proof.
  unfold nx.has_node. rewrite bool_decide_eq_false.
  by rewrite eq_None_not_Some.
Qed.

Lemma dom_nodes_add_node n attr G :
  dom (nodes (nx.add_node n attr G)) = {[n]} ∪ dom (nodes G).
Proof. apply dom_insert_L. Qed.

Lemma edges_add_node n attr G : edges (nx.add_node n attr G) = edges G.
Proof. reflexivity. Qed.

Lemma dom_nodes_add_edge u v attr G :
  dom (nodes (nx.add_edge u v attr G)) = {[u; v]} ∪ dom (nodes G).
Proof.
  unfold nx.add_edge. cbn [nodes].
  assert (Hins : ∀ (w : string) (ns : gmap string (gmap string value)),
            dom (if decide (is_Some (ns !! w)) then ns else <[w := ∅]> ns)
            = {[w]} ∪ dom ns).
  { intros w ns. case_decide as Hw.
    - apply elem_of_dom in Hw. set_solver.
    - apply dom_insert_L. }
  rewrite !Hins. set_solver.
Qed.

Lemma dom_edges_add_edge u v attr G :
  dom (edges (nx.add_edge u v attr G)) = {[(u, v)]} ∪ dom (edges G).
Proof. apply dom_insert_L. Qed.

(** [add_edge] between two nodes of the graph leaves the nodes alone. *)
Lemma nodes_add_edge_present u v attr G :
  u ∈ dom (nodes G) → v ∈ dom (nodes G) →
  nodes (nx.add_edge u v attr G) = nodes G.
Proof.
  intros Hu%elem_of_dom Hv%elem_of_dom. unfold nx.add_edge. cbn [nodes].
  destruct (decide (is_Some (nodes G !! u))); [|done].
  by destruct (decide (is_Some (nodes G !! v))).
Qed.

Lemma lookup_nodes_remove_node n n' G :
  nodes (nx.remove_node n G) !! n' = if decide (n = n') then None else nodes G !! n'.
Proof. apply lookup_delete. Qed.

Lemma lookup_edges_remove_node n u v G :
  edges (nx.remove_node n G) !! (u, v)
  = if decide (u = n ∨ v = n) then None else edges G !! (u, v).
Proof.
  unfold nx.remove_node. cbn [edges].
  destruct (edges G !! (u, v)) as [a|] eqn:E.
  - case_decide as Hn.
    + apply map_lookup_filter_None. right. intros a' Ha'. simpl. tauto.
    + apply map_lookup_filter_Some. split; [done|]. simpl. tauto.
  - rewrite (map_lookup_filter_None_2 _ _ (u, v)) by (by left).
    by case_decide.
Qed.

End GraphFacts.

(** ** Graph Builder: the two invariants *)

Section BuilderInvariants.
Implicit Types (G : DiGraph) (n u v : string) (attr : gmap string value).

Lemma labelled_has_label (lbl : string) (style : gmap string value) :
  is_Some (labelled lbl style !! "label").
Proof. unfold labelled. rewrite lookup_insert_eq. eauto. Qed.

Lemma no_dangling_add_node n attr G : no_dangling G → no_dangling (nx.add_node n attr G).
Proof.
  intros HG u v Huv. rewrite dom_nodes_add_node.
  destruct (HG u v Huv). set_solver.
Qed.

Lemma no_dangling_add_edge u v attr G : no_dangling G → no_dangling (nx.add_edge u v attr G).
Proof.
  intros HG u' v' Huv. rewrite dom_nodes_add_edge.
  apply elem_of_dom in Huv. rewrite dom_edges_add_edge in Huv.
  apply elem_of_union in Huv as [Huv%elem_of_singleton|Huv%elem_of_dom].
  - injection Huv as -> ->. set_solver.
  - destruct (HG u' v' Huv). set_solver.
Qed.

Lemma no_dangling_remove_node n G : no_dangling G → no_dangling (nx.remove_node n G).
Proof.
  intros HG u v Huv. rewrite lookup_edges_remove_node in Huv.
  case_decide as Hn; [by destruct Huv|].
  destruct (HG u v Huv) as [Hu Hv].
  unfold nx.remove_node. cbn [nodes]. rewrite dom_delete_L. set_solver.
Qed.

Lemma no_dangling_remove_nodes_from (l : list string) G :
  no_dangling G → no_dangling (nx.remove_nodes_from l G).
Proof.
  unfold nx.remove_nodes_from. revert G.
  induction l as [|n l IH]; intros G HG; [done|].
  simpl. apply IH. destruct (nx.has_node n G); [|done].
  by apply no_dangling_remove_node.
Qed.

Lemma all_labelled_add_node n attr G :
  is_Some (attr !! "label") → all_labelled G → all_labelled (nx.add_node n attr G).
Proof.
  intros Hl HG n' a. unfold nx.add_node. cbn [nodes].
  rewrite lookup_insert. case_decide; [|apply HG].
  intros [= <-]. destruct Hl as [x Hx].
  exists x. by apply lookup_union_Some_l.
Qed.

Lemma all_labelled_add_edge u v attr G :
  u ∈ dom (nodes G) → v ∈ dom (nodes G) →
  all_labelled G → all_labelled (nx.add_edge u v attr G).
Proof.
  intros Hu Hv HG n a. by rewrite nodes_add_edge_present; [apply HG|..].
Qed.

(** [ensure_node], when it returns. *)
Lemma ensure_node_Some n G G' :
  ensure_node n G = Some G' →
  dom (nodes G') = {[n]} ∪ dom (nodes G) ∧ edges G' = edges G
  ∧ (all_labelled G → all_labelled G')
  ∧ (∀ n', n' ≠ n → nodes G' !! n' = nodes G !! n')
  ∧ (∀ kind name, nodes G !! n = None → PyStr.partition ":" n = Some (kind, name) →
       nodes G' !! n = Some (placeholder_attr kind name)).
Proof.
  unfold ensure_node. destruct (nx.has_node n G) eqn:Hn.
  - intros [= <-]. apply has_node_true in Hn.
    split; [set_solver|]. split; [done|]. split; [done|]. split; [done|].
    intros kind name Hnone. apply elem_of_dom in Hn as [? ?]. congruence.
  - destruct (PyStr.partition ":" n) as [[kind name]|]; [|done]. simpl.
    intros [= <-]. apply has_node_false in Hn.
    assert (Hshape : ∃ attr, is_Some (attr !! "label") ∧ attr = placeholder_attr kind name ∧
      (if decide (kind = "function")
       then nx.add_node n (labelled (last_component name) STYLE_function) G
       else if decide (kind = "module")
            then nx.add_node n (labelled name STYLE_module) G
            else nx.add_node n (labelled name ∅) G) = nx.add_node n attr G).
    { unfold placeholder_attr. repeat case_decide;
        eexists; (split; [apply labelled_has_label|done]). }
    destruct Hshape as (attr & Hl & Hattr & ->).
    split; [apply dom_nodes_add_node|]. split; [done|].
    split; [by apply all_labelled_add_node|].
    split.
    + intros n' Hne. unfold nx.add_node. cbn [nodes]. by rewrite lookup_insert_ne.
    + intros kind' name' _ [= <- <-]. unfold nx.add_node. cbn [nodes].
      rewrite lookup_insert_eq, Hn. simpl. by rewrite (right_id_L ∅ (∪)), Hattr.
Qed.

Lemma ensure_node_total n G :
  has_colon n → is_Some (ensure_node n G).
Proof.
  intros Hn. unfold ensure_node. destruct (nx.has_node n G); [done|].
  apply partition_is_Some in Hn as [[kind name] ->]. done.
Qed.

Lemma ensure_node_present n G : n ∈ dom (nodes G) → ensure_node n G = Some G.
Proof. intros Hn%has_node_true. unfold ensure_node. by rewrite Hn. Qed.

End BuilderInvariants.

(** ** Graph Builder: what each loop adds *)

Section BuilderSteps.
Implicit Types (G : DiGraph) (n u v : string) (attr : gmap string value).

Lemma extends_refl G : extends ∅ ∅ G G.
Proof. unfold extends. set_solver. Qed.

Lemma extends_trans N1 E1 N2 E2 N E G G1 G2 :
  extends N1 E1 G G1 → extends N2 E2 G1 G2 →
  N = N1 ∪ N2 → E = E1 ∪ E2 → extends N E G G2.
Proof.
  intros (Hn1 & He1 & Hd1 & Hl1) (Hn2 & He2 & Hd2 & Hl2) -> ->.
  unfold extends. rewrite Hn2, Hn1, He2, He1.
  split; [set_solver|]. split; [set_solver|]. auto.
Qed.

Lemma extends_add_node n attr G :
  is_Some (attr !! "label") → extends {[n]} ∅ G (nx.add_node n attr G).
Proof.
  intros Hl. unfold extends. rewrite dom_nodes_add_node, edges_add_node.
  split; [done|]. split; [set_solver|].
  split; [apply no_dangling_add_node | by apply all_labelled_add_node].
Qed.

Lemma extends_add_edge u v attr G :
  u ∈ dom (nodes G) → v ∈ dom (nodes G) →
  extends ∅ {[(u, v)]} G (nx.add_edge u v attr G).
Proof.
  intros Hu Hv. unfold extends. rewrite dom_nodes_add_edge, dom_edges_add_edge.
  split; [set_solver|]. split; [done|].
  split; [apply no_dangling_add_edge | by apply all_labelled_add_edge].
Qed.

Lemma extends_dom N E G G' n : extends N E G G' → n ∈ dom (nodes G) → n ∈ dom (nodes G').
Proof. intros (-> & _) ?. set_solver. Qed.

Lemma extends_ensure_node n G G' : ensure_node n G = Some G' → extends {[n]} ∅ G G'.
Proof.
  intros (Hn & He & Hl & _)%ensure_node_Some. unfold extends.
  rewrite Hn, He. split; [done|]. split; [set_solver|]. split; [|done].
  intros HG u v Huv. rewrite Hn. rewrite He in Huv.
  destruct (HG u v Huv). set_solver.
Qed.

Lemma extends_add_call (c : string * string) G G' :
  add_call G c = Some G' → extends {[c.1; c.2]} {[c]} G G'.
Proof.
  unfold add_call. intros H.
  destruct (ensure_node c.1 G) as [G1|] eqn:E1; [|done]. simpl in H.
  destruct (ensure_node c.2 G1) as [G2|] eqn:E2; [|done]. simpl in H.
  injection H as <-.
  apply extends_ensure_node in E1, E2.
  assert (H1 : c.1 ∈ dom (nodes G2)).
  { destruct E1 as (E1 & _), E2 as (E2 & _). rewrite E2, E1. set_solver. }
  assert (H2 : c.2 ∈ dom (nodes G2)).
  { destruct E2 as (E2 & _). rewrite E2. set_solver. }
  eapply extends_trans; [eapply extends_trans; [exact E1|exact E2|done..]
                        |by apply extends_add_edge|..].
  - set_solver.
  - destruct c. set_solver.
Qed.

Lemma add_call_total (c : string * string) G :
  has_colon c.1 → has_colon c.2 → is_Some (add_call G c).
Proof.
  intros H1 H2. unfold add_call.
  destruct (ensure_node_total c.1 G H1) as [G1 ->]. simpl.
  destruct (ensure_node_total c.2 G1 H2) as [G2 ->]. simpl. done.
Qed.

Lemma extends_add_calls (cs : list (string * string)) G G' :
  add_calls cs G = Some G' →
  extends (list_to_set cs.*1 ∪ list_to_set cs.*2) (list_to_set cs) G G'.
Proof.
  revert G. induction cs as [|c cs IH]; intros G H.
  - injection H as <-. simpl.
    eapply extends_trans; [apply extends_refl|apply extends_refl|set_solver..].
  - simpl in H. destruct (add_call G c) as [G1|] eqn:E1; [|done]. simpl in H.
    eapply extends_trans; [by apply extends_add_call|by apply IH|..].
    + rewrite !fmap_cons, !list_to_set_cons. set_solver.
    + rewrite list_to_set_cons. set_solver.
Qed.

Lemma add_calls_total (cs : list (string * string)) G :
  Forall (λ c, has_colon c.1 ∧ has_colon c.2) cs → is_Some (add_calls cs G).
Proof.
  intros Hcs. revert G. induction Hcs as [|c cs [H1 H2] _ IH]; intros G; [done|].
  simpl. destruct (add_call_total c G H1 H2) as [G1 ->]. simpl. apply IH.
Qed.

Lemma extends_add_import_edge (mod_id im : string) G :
  mod_id ∈ dom (nodes G) →
  extends {["module:" +:+ im]} {[(mod_id, "module:" +:+ im)]} G
    (add_import_edge mod_id G im).
Proof.
  intros Hm. unfold add_import_edge.
  eapply extends_trans;
    [apply extends_add_node, labelled_has_label
    |apply extends_add_edge; rewrite dom_nodes_add_node; set_solver
    |set_solver..].
Qed.

Lemma extends_add_imports (mod_id : string) (ims : list string) G :
  mod_id ∈ dom (nodes G) →
  extends (list_to_set ((λ im, "module:" +:+ im) <$> ims))
          (list_to_set ((λ im, (mod_id, "module:" +:+ im)) <$> ims))
          G (foldl (add_import_edge mod_id) G ims).
Proof.
  revert G. induction ims as [|im ims IH]; intros G Hm.
  - simpl. eapply extends_trans; [apply extends_refl|apply extends_refl|set_solver..].
  - simpl foldl.
    pose proof (extends_add_import_edge mod_id im G Hm) as Hstep.
    eapply extends_trans; [exact Hstep|apply IH; by eapply extends_dom|..].
    + rewrite fmap_cons, list_to_set_cons. set_solver.
    + rewrite fmap_cons, list_to_set_cons. set_solver.
Qed.

Lemma extends_add_func (mod_id qual : string) G G' :
  mod_id ∈ dom (nodes G) → add_func mod_id G qual = Some G' →
  extends {[qual]} {[(mod_id, qual)]} G G'.
Proof.
  intros Hm. unfold add_func.
  destruct (PyStr.partition ":" qual) as [[kind name]|]; [|done]. simpl.
  intros [= <-].
  eapply extends_trans;
    [apply extends_add_node, labelled_has_label
    |apply extends_add_edge; rewrite dom_nodes_add_node; set_solver
    |set_solver..].
Qed.

Lemma extends_add_funcs (mod_id : string) (quals : list string) G G' :
  mod_id ∈ dom (nodes G) → add_funcs mod_id quals G = Some G' →
  extends (list_to_set quals) (list_to_set ((λ q, (mod_id, q)) <$> quals)) G G'.
Proof.
  revert G. induction quals as [|q quals IH]; intros G Hm H.
  - injection H as <-. simpl.
    eapply extends_trans; [apply extends_refl|apply extends_refl|set_solver..].
  - simpl in H. destruct (add_func mod_id G q) as [G1|] eqn:E1; [|done]. simpl in H.
    pose proof (extends_add_func mod_id q G G1 Hm E1) as Hstep.
    eapply extends_trans; [exact Hstep|apply IH; [by eapply extends_dom|done]|..].
    + rewrite list_to_set_cons. set_solver.
    + rewrite fmap_cons, list_to_set_cons. set_solver.
Qed.

Lemma add_funcs_total (mod_id : string) (quals : list string) G :
  Forall has_colon quals → is_Some (add_funcs mod_id quals G).
Proof.
  intros Hq. revert G. induction Hq as [|q quals Hq _ IH]; intros G; [done|].
  simpl. unfold add_func at 1.
  apply partition_is_Some in Hq as [[kind name] ->]. simpl. apply IH.
Qed.

End BuilderSteps.

(** ** Per-File Analyzer: the names it produces are tagged *)

Section TaggedFacts.
Variable ROOT_PKG : string.

Lemma has_colon_function (s : string) : has_colon ("function:" +:+ s).
Proof. reflexivity. Qed.

Lemma has_colon_module (s : string) : has_colon ("module:" +:+ s).
Proof. reflexivity. Qed.

Lemma has_colon_file (s : string) : has_colon ("file:" +:+ s).
Proof. reflexivity. Qed.

Lemma has_colon_func_qual (m : string) (cls : option string) (name : string) :
  has_colon (func_qual m cls name).
Proof. destruct cls as [[|a c]|]; reflexivity. Qed.

Lemma truthy_func_qual (m : string) (cls : option string) (name : string) :
  PyStr.truthy (func_qual m cls name) = true.
Proof. destruct cls as [[|a c]|]; reflexivity. Qed.

Lemma resolve_callee_tagged (func : node) (ca : CodeAnalyzer) (q : string) :
  tagged_facts ca → resolve_callee ROOT_PKG func ca = Some q → has_colon q.
Proof.
  intros [Hdefs _]. destruct func as [| | | | |name|value attr|]; try done.
  - simpl. destruct (func_defs ca !! name) as [q'|] eqn:E.
    + intros [= <-]. by apply (Hdefs name).
    + destruct (aliases ca !! name) as [full|]; [|done].
      destruct (PyStr.startswith _ _); [|done].
      destruct (PyStr.contains _ _); intros [= <-]; reflexivity.
  - destruct value; try done. simpl.
    destruct (aliases ca !! id) as [full|]; [|done].
    destruct (PyStr.startswith _ _); [|done]. intros [= <-]. reflexivity.
Qed.

Lemma record_call_tagged (func : node) (ca : CodeAnalyzer) :
  has_colon (caller_of ca) → tagged_facts ca →
  tagged_facts (record_call ROOT_PKG func ca).
Proof.
  intros Hc Hca. unfold record_call.
  destruct (resolve_callee ROOT_PKG func ca) as [q|] eqn:E; [|done].
  destruct (PyStr.truthy q); [|done].
  destruct Hca as [Hdefs Hcalls]. split; [done|]. cbn [calls append_call].
  apply Forall_app. split; [done|].
  repeat constructor; simpl; [done|].
  by eapply resolve_callee_tagged.
Qed.

Lemma caller_of_context (ca ca' : CodeAnalyzer) :
  same_context ca ca' → caller_of ca' = caller_of ca.
Proof. intros (Hm & Hf & _). unfold caller_of. by rewrite Hm, Hf. Qed.

Lemma visit_list_tagged (l : list node) :
  Forall (λ c, ∀ ca, has_colon (caller_of ca) → tagged_facts ca →
                     tagged_facts (visit ROOT_PKG c ca)) l →
  ∀ ca, has_colon (caller_of ca) → tagged_facts ca →
        tagged_facts (visit_list ROOT_PKG l ca).
Proof.
  induction 1 as [|c l Hc _ IH]; intros ca Hcaller Hca; [done|].
  rewrite visit_list_cons. apply IH; [|by apply Hc].
  by rewrite (caller_of_context _ _ (visit_context ROOT_PKG c ca)).
Qed.

Lemma visit_tagged (n : node) (ca : CodeAnalyzer) :
  has_colon (caller_of ca) → tagged_facts ca → tagged_facts (visit ROOT_PKG n ca).
Proof.
  revert ca. induction n as [names|module names level|name children H|name children H
                  |func args IHn H|id|value attr IHn|children H]
    using node_induction; intros ca Hcaller Hca.
  - destruct (visit_Import_frame ROOT_PKG names ca) as (_ & _ & _ & Hd & Hc).
    unfold tagged_facts. cbn [visit]. by rewrite Hd, Hc.
  - destruct (visit_ImportFrom_frame ROOT_PKG module names level ca)
      as (_ & _ & _ & Hd & Hc).
    unfold tagged_facts. cbn [visit]. by rewrite Hd, Hc.
  - rewrite visit_ClassDef.
    by apply (visit_list_tagged children H (set_current_class (Some name) ca)).
  - rewrite visit_FunctionDef. cbv zeta.
    set (qual := func_qual (modname ca) (current_class ca) name).
    apply (visit_list_tagged children H
             (set_current_fn (Some qual) (define_func name qual ca))).
    + unfold caller_of. cbn [current_fn set_current_fn PyStr.or_else].
      unfold qual. rewrite truthy_func_qual. apply has_colon_func_qual.
    + destruct Hca as [Hdefs Hcalls]. split; [|done].
      cbn [func_defs set_current_fn define_func].
      apply map_Forall_insert_2; [apply has_colon_func_qual|done].
  - rewrite visit_Call.
    apply (visit_list_tagged (func :: args) (List.Forall_cons _ _ _ IHn H)).
    + rewrite (caller_of_context ca); [done|].
      by destruct (record_call_frame ROOT_PKG func ca) as (? & ? & ? & _).
    + by apply record_call_tagged.
  - done.
  - by apply IHn.
  - rewrite visit_Other. by apply visit_list_tagged.
Qed.

(** The facts of a file name nothing without a kind tag. *)
Lemma analyze_tagged (m : string) (tree : node) : tagged_facts (analyze ROOT_PKG m tree).
Proof.
  apply visit_tagged; [reflexivity|].
  split; [apply map_Forall_empty|constructor].
Qed.

End TaggedFacts.

(** ** Graph Builder: Pass 2 *)

Section Aggregation.
Implicit Types (G : DiGraph) (r : result) (rs : list result).

Lemma nodes_union_shape (a b i f c1 c2 : gset string) :
  a ∪ b ∪ i ∪ f ∪ c1 ∪ c2 = (a ∪ b ∪ ∅ ∪ i ∪ f ∪ (c1 ∪ c2)) ∪ ∅.
Proof. set_solver. Qed.

Lemma edges_union_shape (e i f c : gset (string * string)) :
  e ∪ i ∪ f ∪ c = (∅ ∪ ∅ ∪ e ∪ i ∪ f ∪ c) ∪ ∅.
Proof. set_solver. Qed.

Lemma extends_add_result r G G' :
  add_result G r = Some G' → extends (result_nodes r) (result_edges r) G G'.
Proof.
  destruct r as [[fpath m] ca]. unfold add_result.
  set (file_id := "file:" +:+ m). set (mod_id := "module:" +:+ m).
  set (G1 := nx.add_node file_id _ G).
  set (G2 := nx.add_node mod_id _ G1).
  set (G3 := nx.add_edge file_id mod_id _ G2).
  set (G4 := foldl _ G3 _).
  intros H. destruct (add_funcs mod_id _ G4) as [G5|] eqn:E5; [|done]. simpl in H.
  assert (H1 : extends {[file_id]} ∅ G G1)
    by apply extends_add_node, labelled_has_label.
  assert (H2 : extends {[mod_id]} ∅ G1 G2)
    by apply extends_add_node, labelled_has_label.
  assert (Hm2 : mod_id ∈ dom (nodes G2))
    by (destruct H2 as (-> & _); set_solver).
  assert (Hf2 : file_id ∈ dom (nodes G2))
    by (destruct H2 as (-> & _), H1 as (-> & _); set_solver).
  assert (H3 : extends ∅ {[(file_id, mod_id)]} G2 G3)
    by by apply extends_add_edge.
  assert (Hm3 : mod_id ∈ dom (nodes G3)) by by eapply extends_dom.
  assert (H4 := extends_add_imports mod_id (elements (imports ca)) G3 Hm3).
  fold G4 in H4.
  assert (Hm4 : mod_id ∈ dom (nodes G4)) by by eapply extends_dom.
  assert (H5 := extends_add_funcs mod_id _ G4 G5 Hm4 E5).
  assert (H6 := extends_add_calls _ _ _ H).
  pose proof (extends_trans _ _ _ _ _ _ _ _ _ H1 H2 eq_refl eq_refl) as H12.
  pose proof (extends_trans _ _ _ _ _ _ _ _ _ H12 H3 eq_refl eq_refl) as H13.
  pose proof (extends_trans _ _ _ _ _ _ _ _ _ H13 H4 eq_refl eq_refl) as H14.
  pose proof (extends_trans _ _ _ _ _ _ _ _ _ H14 H5 eq_refl eq_refl) as H15.
  pose proof (extends_trans _ _ _ _ _ _ _ _ _ H15 H6 eq_refl eq_refl) as H16.
  eapply extends_trans; [exact H16|apply extends_refl|..].
  - unfold result_nodes. fold file_id mod_id. apply nodes_union_shape.
  - unfold result_edges. fold file_id mod_id. apply edges_union_shape.
Qed.

Lemma add_result_total (fpath : Path) (m : string) (ca : CodeAnalyzer) G :
  tagged_facts ca → is_Some (add_result G (fpath, m, ca)).
Proof.
  intros [Hdefs Hcalls]. unfold add_result.
  match goal with |- context [add_funcs ?i ?q ?g] =>
    destruct (add_funcs_total i q g) as [G5 ->] end.
  - apply Forall_fmap, Forall_forall. intros [k q] Hkq%elem_of_map_to_list.
    by apply (Hdefs k).
  - simpl. by apply add_calls_total.
Qed.

Lemma extends_aggregate_from rs G G' :
  aggregate_from rs G = Some G' →
  extends (⋃ (result_nodes <$> rs)) (⋃ (result_edges <$> rs)) G G'.
Proof.
  revert G. induction rs as [|r rs IH]; intros G H.
  - injection H as <-. simpl.
    eapply extends_trans; [apply extends_refl|apply extends_refl|set_solver..].
  - simpl in H. destruct (add_result G r) as [G1|] eqn:E1; [|done]. simpl in H.
    eapply extends_trans; [by apply extends_add_result|by apply IH|done..].
Qed.

Lemma aggregate_from_total rs G :
  Forall (λ r, tagged_facts r.2) rs → is_Some (aggregate_from rs G).
Proof.
  intros Hrs. revert G.
  induction Hrs as [|[[fpath m] ca] rs Hr _ IH]; intros G; [done|].
  cbn [aggregate_from].
  destruct (add_result_total fpath m ca G Hr) as [G1 ->]. apply IH.
Qed.

Lemma no_dangling_empty : no_dangling nx.empty.
Proof. intros u v [a Ha]. cbn in Ha. by rewrite lookup_empty in Ha. Qed.

Lemma all_labelled_empty : all_labelled nx.empty.
Proof. intros n a Ha. cbn in Ha. by rewrite lookup_empty in Ha. Qed.

(** The graph of Pass 2 has the nodes and the edges of the fact sets, and
    no others. *)
Lemma aggregate_Some rs G :
  aggregate rs = Some G →
  dom (nodes G) = ⋃ (result_nodes <$> rs)
  ∧ dom (edges G) = ⋃ (result_edges <$> rs)
  ∧ no_dangling G ∧ all_labelled G.
Proof.
  intros (Hn & He & Hd & Hl)%extends_aggregate_from.
  rewrite Hn, He. cbn [nx.empty nodes edges]. rewrite !dom_empty_L.
  split; [set_solver|]. split; [set_solver|].
  split; [apply Hd, no_dangling_empty | apply Hl, all_labelled_empty].
Qed.

Lemma analyze_files_tagged (ROOT_PKG : string) (root_dir : Path)
    (files : list (Path * node)) rs :
  analyze_files ROOT_PKG root_dir files = Some rs →
  Forall (λ r, tagged_facts r.2) rs.
Proof.
  revert rs. induction files as [|[f tree] files IH]; intros rs H.
  - injection H as <-. constructor.
  - simpl in H. destruct (module_name _ _ _) as [m|]; [|done]. simpl in H.
    destruct (analyze_files _ _ _) as [rs'|]; [|done]. simpl in H.
    injection H as <-. constructor; [apply analyze_tagged|by apply IH].
Qed.

Lemma analyze_files_total (ROOT_PKG : string) (root_dir : Path)
    (files : list (Path * node)) :
  Forall (λ f, is_Some (module_name ROOT_PKG f.1 root_dir)) files →
  is_Some (analyze_files ROOT_PKG root_dir files).
Proof.
  induction 1 as [|[f tree] files [m Hm] _ [rs IH]]; [done|].
  simpl in *. by rewrite Hm, IH.
Qed.

(** [build_graph] returns a graph for files under the root. *)
Lemma build_graph_total (ROOT_PKG : string) (root_dir : Path)
    (files : list (Path * node)) :
  Forall (λ f, is_Some (module_name ROOT_PKG f.1 root_dir)) files →
  ∃ rs G, analyze_files ROOT_PKG root_dir files = Some rs
          ∧ build_graph ROOT_PKG root_dir files = Some G
          ∧ aggregate rs = Some G.
Proof.
  intros [rs Hrs]%analyze_files_total.
  destruct (aggregate_from_total rs nx.empty (analyze_files_tagged _ _ _ _ Hrs))
    as [G HG].
  exists rs, G. unfold build_graph. rewrite Hrs. done.
Qed.

End Aggregation.

(** ** Pruner *)

Section PrunerFacts.
Implicit Types (G : DiGraph) (n u v : string) (ign : gset string).

Lemma startswith_spec (s p : string) :
  PyStr.startswith s p = true ↔ ∃ rest, s = p +:+ rest.
Proof.
  split.
  - revert s. induction p as [|c p IH]; intros s; [by exists s|].
    destruct s as [|d s]; [done|]. simpl. case_decide as Hc; [|done].
    intros [rest ->]%IH. exists rest. by subst.
  - intros [rest ->]. apply startswith_app.
Qed.

(** The test of the Pruner is the exact or dotted-prefix match. *)
Lemma ignored_spec ign (name : string) :
  ignored ign name = true ↔ matches_entry ign name.
Proof.
  unfold ignored, matches_entry.
  rewrite orb_true_iff, bool_decide_eq_true, existsb_exists.
  apply or_iff_compat_l. split.
  - intros (i & Hi & [rest Hrest]%startswith_spec).
    exists i, rest. split.
    + apply elem_of_elements. by apply list_elem_of_In.
    + by rewrite Hrest, app_assoc.
  - intros (i & rest & Hi & ->). exists i. split.
    + apply list_elem_of_In. by apply elem_of_elements.
    + apply startswith_spec. exists rest. by rewrite app_assoc.
Qed.

Lemma to_remove_tagged ign (ns : list string) :
  Forall has_colon ns →
  to_remove ign ns = Some (filter (λ n, pruned ign n = true) ns).
Proof.
  induction 1 as [|n ns Hn _ IH]; [done|].
  simpl. unfold pruned at 1, qualified_name.
  apply partition_is_Some in Hn as [[kind name] Hn].
  rewrite Hn, IH. simpl. rewrite filter_cons.
  unfold pruned, qualified_name. rewrite Hn. simpl.
  by destruct (ignored ign name).
Qed.

Lemma lookup_nodes_remove_nodes_from (l : list string) G n :
  nodes (nx.remove_nodes_from l G) !! n
  = if decide (n ∈ l) then None else nodes G !! n.
Proof.
  unfold nx.remove_nodes_from. revert G.
  induction l as [|x l IH]; intros G.
  - cbn [foldl]. by rewrite decide_False by set_solver.
  - cbn [foldl]. rewrite IH. destruct (nx.has_node x G) eqn:Hx.
    + rewrite lookup_nodes_remove_node.
      repeat case_decide; try done; set_solver.
    + apply has_node_false in Hx.
      repeat case_decide; try done; set_solver.
Qed.

Lemma dom_nodes_remove_node x G :
  dom (nodes (nx.remove_node x G)) = dom (nodes G) ∖ {[x]}.
Proof. apply dom_delete_L. Qed.

(** An edge goes exactly when one of its ends is a node that is removed. *)
Lemma lookup_edges_remove_nodes_from (l : list string) G u v :
  edges (nx.remove_nodes_from l G) !! (u, v)
  = if decide ((u ∈ l ∧ u ∈ dom (nodes G)) ∨ (v ∈ l ∧ v ∈ dom (nodes G)))
    then None else edges G !! (u, v).
Proof.
  unfold nx.remove_nodes_from. revert G.
  induction l as [|x l IH]; intros G.
  - cbn [foldl]. by rewrite decide_False by set_solver.
  - cbn [foldl]. rewrite IH. destruct (nx.has_node x G) eqn:Hx.
    + rewrite lookup_edges_remove_node, dom_nodes_remove_node.
      apply has_node_true in Hx.
      repeat case_decide; try done; exfalso; set_solver.
    + apply has_node_false, not_elem_of_dom in Hx.
      repeat case_decide; try done; exfalso; set_solver.
Qed.

Lemma elem_of_node_list n G : n ∈ nx.node_list G ↔ n ∈ dom (nodes G).
Proof.
  unfold nx.node_list. rewrite elem_of_dom. split.
  - intros [[k a] [-> H%elem_of_map_to_list]]%list_elem_of_fmap. by exists a.
  - intros [a Ha]. apply list_elem_of_fmap. exists (n, a).
    split; [done|]. by apply elem_of_map_to_list.
Qed.

(** [prune_graph] on a graph whose nodes are tagged, by lookups. *)
Lemma prune_graph_tagged ign G :
  (∀ n, n ∈ dom (nodes G) → has_colon n) →
  ∃ G', prune_graph ign G = Some G'
    ∧ (∀ n, nodes G' !! n = if pruned ign n then None else nodes G !! n)
    ∧ (∀ u v, edges G' !! (u, v)
         = if decide ((u ∈ dom (nodes G) ∧ pruned ign u = true)
                      ∨ (v ∈ dom (nodes G) ∧ pruned ign v = true))
           then None else edges G !! (u, v)).
Proof.
  intros Htag. unfold prune_graph.
  rewrite to_remove_tagged
    by (apply Forall_forall; intros n Hn%elem_of_node_list; by apply Htag).
  simpl. eexists. split; [done|]. split.
  - intros n. rewrite lookup_nodes_remove_nodes_from.
    case_decide as Hn.
    + apply list_elem_of_filter in Hn as [-> _]. done.
    + destruct (pruned ign n) eqn:Hp; [|done].
      destruct (nodes G !! n) as [a|] eqn:E; [|done].
      exfalso. apply Hn, list_elem_of_filter. split; [done|].
      apply elem_of_node_list, elem_of_dom. eauto.
  - intros u v. rewrite lookup_edges_remove_nodes_from.
    assert (Hiff : ∀ w, w ∈ filter (λ n, pruned ign n = true) (nx.node_list G)
                        ∧ w ∈ dom (nodes G)
                      ↔ w ∈ dom (nodes G) ∧ pruned ign w = true).
    { intros w. rewrite list_elem_of_filter, elem_of_node_list. tauto. }
    repeat case_decide; try done; exfalso; rewrite !Hiff in *; tauto.
Qed.

End PrunerFacts.

(** ** The pipeline *)

Section PipelineFacts.
Implicit Types (G : DiGraph) (ign : gset string).

Lemma result_nodes_tagged (r : result) n :
  tagged_facts r.2 → n ∈ result_nodes r → has_colon n.
Proof.
  destruct r as [[fpath m] ca]. intros [Hdefs Hcalls]. unfold result_nodes.
  rewrite !elem_of_union, !elem_of_list_to_set, elem_of_singleton.
  rewrite !list_elem_of_fmap.
  intros [[[[[->| ->%elem_of_singleton]|(im & -> & _)]|([k q] & -> & Hq)]
          |(c & -> & Hc)]|(c & -> & Hc)].
  - reflexivity.
  - reflexivity.
  - reflexivity.
  - apply elem_of_map_to_list in Hq. by apply (Hdefs k).
  - by apply (proj1 (Forall_forall _ _) Hcalls c).
  - by apply (proj1 (Forall_forall _ _) Hcalls c).
Qed.

Lemma aggregate_tagged (rs : list result) G n :
  Forall (λ r, tagged_facts r.2) rs → aggregate rs = Some G →
  n ∈ dom (nodes G) → has_colon n.
Proof.
  intros Hrs (Hn & _)%aggregate_Some. rewrite Hn.
  intros (X & (r & -> & Hr)%list_elem_of_fmap & HX)%elem_of_union_list.
  eapply result_nodes_tagged; [|done].
  by apply (proj1 (Forall_forall _ _) Hrs r).
Qed.

Lemma prune_graph_no_dangling ign G G' :
  prune_graph ign G = Some G' → no_dangling G → no_dangling G'.
Proof.
  unfold prune_graph. destruct (to_remove ign _) as [l|]; [|done].
  intros [= <-]. apply no_dangling_remove_nodes_from.
Qed.

(** What the Pruner keeps depends on the names alone. *)
Lemma prune_graph_same ign G1 G2 G1' G2' :
  (∀ n, n ∈ dom (nodes G1) → has_colon n) →
  same_nodes_edges G1 G2 →
  prune_graph ign G1 = Some G1' → prune_graph ign G2 = Some G2' →
  same_nodes_edges G1' G2'.
Proof.
  intros Htag [Hn He] H1 H2.
  destruct (prune_graph_tagged ign G1 Htag) as (G & E1 & Hn1 & He1).
  destruct (prune_graph_tagged ign G2) as (G' & E2 & Hn2 & He2).
  { intros n. rewrite <- Hn. apply Htag. }
  assert (G = G1') as -> by congruence. assert (G' = G2') as -> by congruence.
  split; apply set_eq.
  - intros n. rewrite !elem_of_dom, Hn1, Hn2.
    destruct (pruned ign n); [done|]. by rewrite <- !elem_of_dom, Hn.
  - intros [u v]. rewrite !elem_of_dom, He1, He2, <- Hn.
    case_decide; [done|]. by rewrite <- !elem_of_dom, He.
Qed.

Lemma analyze_files_fmap (ROOT_PKG : string) (root_dir : Path)
    (files : list (Path * node)) (rs : list result) :
  analyze_files ROOT_PKG root_dir files = Some rs →
  rs = (λ f, let m := default "" (module_name ROOT_PKG f.1 root_dir) in
             (f.1, m, analyze ROOT_PKG m f.2)) <$> files.
Proof.
  revert rs. induction files as [|[f tree] files IH]; intros rs H.
  - by injection H as <-.
  - simpl in H. destruct (module_name _ _ _) as [m|] eqn:Em; [|done]. simpl in H.
    destruct (analyze_files _ _ _) as [rs'|]; [|done]. simpl in H.
    injection H as <-. rewrite fmap_cons. cbn [fst snd]. rewrite Em.
    cbn [default]. f_equal. by apply IH.
Qed.

End PipelineFacts.

(** C1. Pass 2 leaves no edge dangling and creates every node with a
    label before any edge names it; [build_graph] returns such a graph for
    files under the root, and so does the Pruner after it; and the loop
    over the call pairs creates a missing endpoint as a placeholder whose
    attributes follow the kind tag of its name before it adds the edge. *)
Theorem no_dangling_edges :
  (∀ (rs : list result) (G : DiGraph),
     aggregate rs = Some G → no_dangling G ∧ all_labelled G)
  ∧ (∀ (ROOT_PKG : string) (root_dir : Path) (files : list (Path * node)),
       Forall (λ f, is_Some (module_name ROOT_PKG f.1 root_dir)) files →
       ∃ G, build_graph ROOT_PKG root_dir files = Some G ∧ no_dangling G
            ∧ ∀ ign, ∃ G', prune_graph ign G = Some G' ∧ no_dangling G')
  ∧ (∀ (G G' : DiGraph) (c : string * string),
       add_call G c = Some G' →
       c.1 ∈ dom (nodes G') ∧ c.2 ∈ dom (nodes G') ∧ c ∈ dom (edges G')
       ∧ ∀ n kind name,
           n = c.1 ∨ n = c.2 → nodes G !! n = None →
           PyStr.partition ":" n = Some (kind, name) →
           nodes G' !! n = Some (placeholder_attr kind name)).
Proof.
  split; [|split].
  - intros rs G (_ & _ & Hd & Hl)%aggregate_Some. done.
  - intros ROOT_PKG root_dir files Hfiles.
    destruct (build_graph_total _ _ _ Hfiles) as (rs & G & Hrs & HG & Hagg).
    pose proof (analyze_files_tagged _ _ _ _ Hrs) as Htag.
    destruct (aggregate_Some _ _ Hagg) as (_ & _ & Hd & _).
    exists G. split; [done|]. split; [done|]. intros ign.
    destruct (prune_graph_tagged ign G) as (G' & HG' & _).
    { intros n. by apply (aggregate_tagged rs). }
    exists G'. split; [done|]. by eapply prune_graph_no_dangling.
  - intros G G' c Hc.
    pose proof (extends_add_call c G G' Hc) as (Hn & He & _).
    split; [rewrite Hn; set_solver|]. split; [rewrite Hn; set_solver|].
    split; [rewrite He; set_solver|].
    intros n kind name Hends Hnone Hpart.
    unfold add_call in Hc.
    destruct (ensure_node c.1 G) as [G1|] eqn:E1; [|done]. simpl in Hc.
    destruct (ensure_node c.2 G1) as [G2|] eqn:E2; [|done]. simpl in Hc.
    injection Hc as <-.
    destruct (ensure_node_Some _ _ _ E1) as (Hd1 & _ & _ & Hother1 & Hnew1).
    destruct (ensure_node_Some _ _ _ E2) as (Hd2 & _ & _ & Hother2 & Hnew2).
    rewrite nodes_add_edge_present by (rewrite Hd2, ?Hd1; set_solver).
    destruct (decide (n = c.2)) as [->|Hne2].
    + destruct (decide (c.2 = c.1)) as [Heq|Hne1].
      * rewrite Heq in *.
        rewrite ensure_node_present in E2 by (rewrite Hd1; set_solver).
        injection E2 as <-. by apply Hnew1.
      * apply Hnew2; [|done]. by rewrite Hother1.
    + destruct Hends as [-> | ->]; [|done].
      rewrite Hother2 by done. by apply Hnew1.
Qed.

Lemma no_dangling_edges_witness :
  (∃ G, build_graph "app" ["/"; "proj"; "app"]
          [(["/"; "proj"; "app"; "main.py"],
            Other [Import [Alias "os" None];
                   ImportFrom (Some "app") [Alias "util" None] 0;
                   Other [Call (Attribute (Name "util") "helper") []]])] = Some G
        ∧ no_dangling G
        ∧ ∀ ign, ∃ G', prune_graph ign G = Some G' ∧ no_dangling G')
  ∧ nodes (default nx.empty
             (add_call nx.empty ("module:app.main", "function:app.util.helper")))
      !! "function:app.util.helper"
    = Some (placeholder_attr "function" "app.util.helper").
Proof.
  destruct no_dangling_edges as (_ & Hbuild & Hcall). split.
  - apply Hbuild. repeat constructor. vm_compute. eauto.
  - apply (Hcall nx.empty _ ("module:app.main", "function:app.util.helper") eq_refl);
      [by right|reflexivity|reflexivity].
Defined.

(** C2. For a fixed root package, ignore set and root directory, the
    pipeline returns a graph on any listing of the files under the root,
    and on two listings of the same files in different orders the two
    graphs have the same set of nodes and the same set of edges. *)
Theorem pipeline_order_independent (ROOT_PKG : string) (ign : gset string)
    (root_dir : Path) (files files' : list (Path * node)) :
  files ≡ₚ files' →
  Forall (λ f, is_Some (module_name ROOT_PKG f.1 root_dir)) files →
  ∃ G G', pipeline ROOT_PKG ign root_dir files = Some G
          ∧ pipeline ROOT_PKG ign root_dir files' = Some G'
          ∧ same_nodes_edges G G'.
Proof.
  intros Hperm Hfiles.
  assert (Hfiles' : Forall (λ f, is_Some (module_name ROOT_PKG f.1 root_dir)) files')
    by by rewrite <- Hperm.
  destruct (build_graph_total _ _ _ Hfiles) as (rs & G0 & Hrs & HG0 & Hagg).
  destruct (build_graph_total _ _ _ Hfiles') as (rs' & G0' & Hrs' & HG0' & Hagg').
  pose proof (analyze_files_tagged _ _ _ _ Hrs) as Htag.
  pose proof (analyze_files_tagged _ _ _ _ Hrs') as Htag'.
  assert (Hrsperm : rs ≡ₚ rs').
  { rewrite (analyze_files_fmap _ _ _ _ Hrs), (analyze_files_fmap _ _ _ _ Hrs').
    by apply fmap_Permutation. }
  assert (Hsame : same_nodes_edges G0 G0').
  { destruct (aggregate_Some _ _ Hagg) as (Hn & He & _).
    destruct (aggregate_Some _ _ Hagg') as (Hn' & He' & _).
    split.
    - rewrite Hn, Hn'. apply leibniz_equiv. by rewrite Hrsperm.
    - rewrite He, He'. apply leibniz_equiv. by rewrite Hrsperm. }
  assert (Htagged : ∀ n, n ∈ dom (nodes G0) → has_colon n)
    by (intros n; by apply (aggregate_tagged rs)).
  assert (Htagged' : ∀ n, n ∈ dom (nodes G0') → has_colon n)
    by (intros n; by apply (aggregate_tagged rs')).
  destruct (prune_graph_tagged ign G0 Htagged) as (G & HG & _).
  destruct (prune_graph_tagged ign G0' Htagged') as (G' & HG' & _).
  exists G, G'. unfold pipeline. rewrite HG0, HG0'. simpl.
  split; [done|]. split; [done|].
  exact (prune_graph_same ign G0 G0' G G' Htagged Hsame HG HG').
Qed.

Lemma pipeline_order_independent_witness :
  ∃ G G',
    pipeline "app" IGNORE_MODULES ["/"; "proj"; "app"]
      [(["/"; "proj"; "app"; "main.py"],
        Other [Import [Alias "os" None];
               ImportFrom (Some "app") [Alias "util" None] 0;
               Other [Call (Attribute (Name "util") "helper") []];
               Other [Call (Attribute (Name "os") "getcwd") []]]);
       (["/"; "proj"; "app"; "util.py"], Other [FunctionDef "helper" []])] = Some G
    ∧ pipeline "app" IGNORE_MODULES ["/"; "proj"; "app"]
        [(["/"; "proj"; "app"; "util.py"], Other [FunctionDef "helper" []]);
         (["/"; "proj"; "app"; "main.py"],
          Other [Import [Alias "os" None];
                 ImportFrom (Some "app") [Alias "util" None] 0;
                 Other [Call (Attribute (Name "util") "helper") []];
                 Other [Call (Attribute (Name "os") "getcwd") []]])] = Some G'
    ∧ same_nodes_edges G G'.
Proof.
  apply pipeline_order_independent.
  - apply perm_swap.
  - repeat constructor; vm_compute; eauto.
Defined.

(** The sets of nodes and edges are all that is independent of the order:
    the files [a/b.py] and [a.b.py] are both named [app.a.b], and the label
    of the one file node is the name of whichever comes last. *)
Example file_label_follows_order :
  (G ← build_graph "app" ["/"; "proj"; "app"]
         [(["/"; "proj"; "app"; "a"; "b.py"], Other []);
          (["/"; "proj"; "app"; "a.b.py"], Other [])];
   attr ← nodes G !! "file:app.a.b"; attr !! "label") = Some (VStr "a.b.py")
  ∧ (G ← build_graph "app" ["/"; "proj"; "app"]
           [(["/"; "proj"; "app"; "a.b.py"], Other []);
            (["/"; "proj"; "app"; "a"; "b.py"], Other [])];
     attr ← nodes G !! "file:app.a.b"; attr !! "label") = Some (VStr "b.py").
Proof. split; reflexivity. Qed.

(** C3. On a graph whose nodes are named [kind:name], the Pruner returns a
    graph; it removes the nodes whose qualified name is an entry of the
    ignore set or an entry followed by a dot and more, and no others; it
    removes the edges with such a node at either end, and no others; what
    stays keeps its attributes; and pruning the result again returns it
    unchanged. *)
Theorem prune_graph_exact (ign : gset string) (G : DiGraph) :
  (∀ n, n ∈ dom (nodes G) → has_colon n) →
  ∃ G', prune_graph ign G = Some G'
    ∧ (∀ n, nodes G' !! n = if pruned ign n then None else nodes G !! n)
    ∧ (∀ u v, edges G' !! (u, v)
         = if decide ((u ∈ dom (nodes G) ∧ pruned ign u = true)
                      ∨ (v ∈ dom (nodes G) ∧ pruned ign v = true))
           then None else edges G !! (u, v))
    ∧ (∀ n name, qualified_name n = Some name →
         pruned ign n = true ↔ matches_entry ign name)
    ∧ prune_graph ign G' = Some G'.
Proof.
  intros Htag.
  destruct (prune_graph_tagged ign G Htag) as (G' & HG' & Hn & He).
  exists G'. split; [done|]. split; [done|]. split; [done|]. split.
  - intros n name Hq. unfold pruned. rewrite Hq. apply ignored_spec.
  - destruct (prune_graph_tagged ign G') as (G'' & HG'' & Hn' & He').
    { intros n [a Ha]%elem_of_dom. rewrite Hn in Ha.
      destruct (pruned ign n); [done|]. apply Htag, elem_of_dom. eauto. }
    rewrite HG''. f_equal.
    assert (Hkept : ∀ n, n ∈ dom (nodes G') → pruned ign n = false).
    { intros n [a Ha]%elem_of_dom. rewrite Hn in Ha. by destruct (pruned ign n). }
    destruct G' as [ns es], G'' as [ns' es']. cbn [nodes edges] in *.
    f_equal; apply map_eq.
    + intros n. rewrite Hn'. destruct (pruned ign n) eqn:Hp; [|done].
      by rewrite Hn, Hp.
    + intros [u v]. rewrite He'. case_decide as Hc; [|done].
      destruct Hc as [[Hd Hp]|[Hd Hp]]; apply Hkept in Hd; congruence.
Qed.

Lemma prune_graph_exact_witness :
  ∃ G', prune_graph IGNORE_MODULES
          (nx.add_edge "module:app.main" "module:os.path" STYLE_import_edge nx.empty)
        = Some G'
    ∧ (∀ n, nodes G' !! n
         = if pruned IGNORE_MODULES n then None
           else nodes (nx.add_edge "module:app.main" "module:os.path"
                         STYLE_import_edge nx.empty) !! n)
    ∧ (∀ u v, edges G' !! (u, v)
         = if decide
                ((u ∈ dom (nodes (nx.add_edge "module:app.main" "module:os.path"
                                    STYLE_import_edge nx.empty))
                  ∧ pruned IGNORE_MODULES u = true)
                 ∨ (v ∈ dom (nodes (nx.add_edge "module:app.main" "module:os.path"
                                      STYLE_import_edge nx.empty))
                    ∧ pruned IGNORE_MODULES v = true))
           then None
           else edges (nx.add_edge "module:app.main" "module:os.path"
                         STYLE_import_edge nx.empty) !! (u, v))
    ∧ (∀ n name, qualified_name n = Some name →
         pruned IGNORE_MODULES n = true ↔ matches_entry IGNORE_MODULES name)
    ∧ prune_graph IGNORE_MODULES G' = Some G'.
Proof.
  apply prune_graph_exact.
  intros n. rewrite dom_nodes_add_edge. cbn [nx.empty nodes].
  rewrite dom_empty_L, !elem_of_union, !elem_of_singleton.
  intros [[-> | ->]|[]%elem_of_empty]; reflexivity.
Defined.

Example prune_graph_os :
  nx.node_list <$>
    prune_graph IGNORE_MODULES
      (nx.add_edge "module:app.main" "module:os.path" STYLE_import_edge nx.empty)
  = Some ["module:app.main"].
Proof. reflexivity. Qed.

(** ** One edge per ordered pair *)

Section ParallelEdges.
Implicit Types (G : DiGraph) (attr : gmap string value).

Lemma number_of_edges_size G : nx.number_of_edges G = size (dom (edges G)).
Proof.
  unfold nx.number_of_edges, nx.edge_list.
  by rewrite length_fmap, size_dom, length_map_to_list.
Qed.

Lemma union_absorb attr (old : gmap string value) : attr ∪ (attr ∪ old) = attr ∪ old.
Proof. by rewrite (assoc_L (∪)), (idemp_L (∪)). Qed.

(** Adding an edge a second time changes nothing. *)
Lemma add_edge_idemp (u v : string) attr G :
  nx.add_edge u v attr (nx.add_edge u v attr G) = nx.add_edge u v attr G.
Proof.
  assert (Hu : u ∈ dom (nodes (nx.add_edge u v attr G)))
    by (rewrite dom_nodes_add_edge; set_solver).
  assert (Hv : v ∈ dom (nodes (nx.add_edge u v attr G)))
    by (rewrite dom_nodes_add_edge; set_solver).
  pose proof (nodes_add_edge_present u v attr _ Hu Hv) as Hnodes.
  destruct (nx.add_edge u v attr (nx.add_edge u v attr G)) as [ns es] eqn:E.
  destruct (nx.add_edge u v attr G) as [ns0 es0] eqn:E0.
  cbn [nodes] in Hnodes. subst ns. f_equal.
  apply (f_equal edges) in E. cbn [edges nx.add_edge] in E. subst es.
  apply (f_equal edges) in E0. cbn [edges nx.add_edge] in E0. subst es0.
  rewrite lookup_insert_eq. cbn [default from_option id].
  by rewrite insert_insert_eq, union_absorb.
Qed.

Lemma add_call_idemp G (c : string * string) G1 :
  add_call G c = Some G1 → add_call G1 c = Some G1.
Proof.
  intros Hc. pose proof (extends_add_call c G G1 Hc) as (Hn & _).
  unfold add_call in *.
  destruct (ensure_node c.1 G) as [G2|]; [|done]. simpl in Hc.
  destruct (ensure_node c.2 G2) as [G3|]; [|done]. simpl in Hc.
  injection Hc as <-.
  rewrite ensure_node_present by (rewrite Hn; set_solver). simpl.
  rewrite ensure_node_present by (rewrite Hn; set_solver). simpl.
  by rewrite add_edge_idemp.
Qed.

Lemma imports_visit_Import (ROOT_PKG : string) (names : list alias) (ca : CodeAnalyzer) :
  imports (visit_Import ROOT_PKG names ca)
  = list_to_set (filter (λ full, PyStr.startswith full ROOT_PKG = true)
                        (alias_name <$> names)) ∪ imports ca.
Proof.
  unfold visit_Import. revert ca.
  induction names as [|a names IH]; intros ca; [set_solver|].
  cbn [foldl]. rewrite IH, fmap_cons, filter_cons. unfold visit_Import_alias.
  destruct (PyStr.startswith (alias_name a) ROOT_PKG) eqn:E.
  - rewrite decide_True by done. cbn [imports add_import bind_alias].
    rewrite list_to_set_cons. set_solver.
  - rewrite decide_False by congruence. done.
Qed.

End ParallelEdges.

(** C9. The graph holds at most one edge per ordered pair of nodes: the
    edges of the built graph are the distinct pairs of the fact sets, a
    call pair recorded a second time adds nothing, a module imported a
    second time adds nothing to the import set, and a file that imports
    [app.util] twice and calls [f] twice from [g] has one edge for each. *)
Theorem parallel_edges_merge :
  (∀ G : DiGraph, NoDup (nx.edge_list G))
  ∧ (∀ (rs : list result) (G : DiGraph),
       aggregate rs = Some G →
       nx.number_of_edges G = size (⋃ (result_edges <$> rs)))
  ∧ (∀ (G G1 : DiGraph) (c : string * string),
       add_call G c = Some G1 → add_call G1 c = Some G1)
  ∧ (∀ (ROOT_PKG : string) (names : list alias) (ca : CodeAnalyzer),
       imports (visit ROOT_PKG (Import names) (visit ROOT_PKG (Import names) ca))
       = imports (visit ROOT_PKG (Import names) ca))
  ∧ nx.edge_list <$>
      build_graph "app" ["/"; "proj"; "app"]
        [(["/"; "proj"; "app"; "main.py"],
          Other [Import [Alias "app.util" None]; Import [Alias "app.util" None];
                 FunctionDef "f" [];
                 FunctionDef "g" [Other [Call (Name "f") []];
                                  Other [Call (Name "f") []]]])]
    = Some [("module:app.main", "module:app.util");
            ("module:app.main", "function:app.main.g");
            ("module:app.main", "function:app.main.f");
            ("file:app.main", "module:app.main");
            ("function:app.main.g", "function:app.main.f")].
Proof.
  split; [|split; [|split; [|split]]].
  - intros G. apply NoDup_fst_map_to_list.
  - intros rs G HG. rewrite number_of_edges_size.
    by destruct (aggregate_Some rs G HG) as (_ & -> & _).
  - intros G G1 c. apply add_call_idemp.
  - intros ROOT_PKG names ca. cbn [visit].
    rewrite !imports_visit_Import. set_solver.
  - reflexivity.
Qed.

Lemma parallel_edges_merge_witness :
  add_call (nx.add_edge "function:app.main.g" "function:app.main.f" STYLE_call_edge
              (nx.add_node "function:app.main.f"
                 (placeholder_attr "function" "app.main.f")
                 (nx.add_node "function:app.main.g"
                    (placeholder_attr "function" "app.main.g") nx.empty)))
    ("function:app.main.g", "function:app.main.f")
  = Some (nx.add_edge "function:app.main.g" "function:app.main.f" STYLE_call_edge
            (nx.add_node "function:app.main.f"
               (placeholder_attr "function" "app.main.f")
               (nx.add_node "function:app.main.g"
                  (placeholder_attr "function" "app.main.g") nx.empty))).
Proof.
  destruct parallel_edges_merge as (_ & _ & Hcall & _).
  apply (Hcall nx.empty _ ("function:app.main.g", "function:app.main.f")).
  reflexivity.
Defined.

(** * Further properties of the code *)

(** ** Module Namer: where it is defined *)

Section NamerDomain.



End NamerDomain.



(** X2. Module names are not unique: the file [s.ext] in the directory [d]
    and the file [d.s.ext] next to that directory are two paths with one
    module name. *)
Theorem module_name_collision (ROOT_PKG : string) (root_dir : Path) (d s ext : string) :
  s ≠ "" → ext ≠ "" → PyStr.contains "." ext = false → s ≠ "." →
  root_dir ++ [d; s +:+ "." +:+ ext] ≠ root_dir ++ [(d +:+ "." +:+ s) +:+ "." +:+ ext]
  ∧ module_name ROOT_PKG (root_dir ++ [d; s +:+ "." +:+ ext]) root_dir
    = Some (ROOT_PKG +:+ "." +:+ d +:+ "." +:+ s)
  ∧ module_name ROOT_PKG (root_dir ++ [(d +:+ "." +:+ s) +:+ "." +:+ ext]) root_dir
    = Some (ROOT_PKG +:+ "." +:+ d +:+ "." +:+ s).
Proof.
  intros Hs He Hd Hdot. split; [|split].
  - intros E. apply (f_equal length) in E. rewrite !length_app in E. simpl in E. lia.
  - unfold module_name. rewrite relative_to_app.
    pose proof (with_suffix_empty_snoc [d] (s +:+ "." +:+ ext)) as Hsnoc.
    rewrite strip_suffix_ext in Hsnoc by done.
    change ([d] ++ [s +:+ "." +:+ ext]) with [d; s +:+ "." +:+ ext] in Hsnoc.
    cbn [mbind option_bind]. by rewrite (Hsnoc Hdot).
  - unfold module_name. rewrite relative_to_app. simpl.
    assert (Hstem : d +:+ "." +:+ s ≠ "") by (by destruct d).
    rewrite (strip_suffix_ext (d +:+ "." +:+ s) ext Hstem He Hd).
    rewrite decide_False; [done|].
    destruct d as [|a [|b d]]; [|done..].
    intros E. injection E as E. by destruct s.
Qed.

Lemma module_name_collision_witness :
  ["/"; "proj"; "app"] ++ ["a"; "b" +:+ "." +:+ "py"]
    ≠ ["/"; "proj"; "app"] ++ [("a" +:+ "." +:+ "b") +:+ "." +:+ "py"]
  ∧ module_name "app" (["/"; "proj"; "app"] ++ ["a"; "b" +:+ "." +:+ "py"])
      ["/"; "proj"; "app"] = Some ("app" +:+ "." +:+ "a" +:+ "." +:+ "b")
  ∧ module_name "app" (["/"; "proj"; "app"] ++ [("a" +:+ "." +:+ "b") +:+ "." +:+ "py"])
      ["/"; "proj"; "app"] = Some ("app" +:+ "." +:+ "a" +:+ "." +:+ "b").
Proof.
  apply (module_name_collision "app" ["/"; "proj"; "app"] "a" "b" "py");
    [discriminate | discriminate | reflexivity | discriminate].
Defined.

(** ** Per-File Analyzer: import statements *)

Section ImportStatement.
Variable ROOT_PKG : string.

Lemma import_alias_aliases (ca : CodeAnalyzer) (a : alias) :
  aliases (visit_Import_alias ROOT_PKG ca a)
  = <[local_name a := alias_name a]> (aliases ca).
Proof. unfold visit_Import_alias. by destruct (PyStr.startswith _ _). Qed.

Lemma import_aliases_keep (asn : string) (names : list alias) (ca : CodeAnalyzer) :
  Forall (λ b, local_name b ≠ asn) names →
  aliases (foldl (visit_Import_alias ROOT_PKG) ca names) !! asn = aliases ca !! asn.
Proof.
  revert ca. induction names as [|b names IH]; intros ca Hn; [done|].
  apply Forall_cons in Hn as [Hb Hn]. simpl. rewrite IH by done.
  rewrite import_alias_aliases. by rewrite lookup_insert_ne.
Qed.

Lemma import_aliases_dom (names : list alias) (ca : CodeAnalyzer) :
  dom (aliases ca) ⊆ dom (aliases (foldl (visit_Import_alias ROOT_PKG) ca names)).
Proof.
  revert ca. induction names as [|b names IH]; intros ca; [done|].
  simpl. etrans; [|apply IH]. rewrite import_alias_aliases, dom_insert_L. set_solver.
Qed.

Lemma from_aliases_dom (module : string) (names : list alias) (ca : CodeAnalyzer) :
  dom (aliases ca)
  ⊆ dom (aliases (foldl (visit_ImportFrom_alias ROOT_PKG module) ca names)).
Proof.
  revert ca. induction names as [|b names IH]; intros ca; [done|].
  simpl. etrans; [|apply IH]. rewrite from_alias_aliases.
  case_decide; [done|]. rewrite dom_insert_L. set_solver.
Qed.

End ImportStatement.

(** X3. After an [import] statement, each name that no later name of the
    statement binds again is bound, under its [as] name or else its own
    full dotted name, to that full dotted name; the name is in the import
    set exactly when it passes the intra-package test or was there before;
    and the symbol table and the recorded calls are untouched. *)
Theorem import_recorded (ROOT_PKG : string) (pre post : list alias) (a : alias)
    (ca : CodeAnalyzer) :
  Forall (λ b, local_name b ≠ local_name a) post →
  let ca' := visit ROOT_PKG (Import (pre ++ a :: post)) ca in
  aliases ca' !! local_name a = Some (alias_name a)
  ∧ (alias_name a ∈ imports ca'
     ↔ PyStr.startswith (alias_name a) ROOT_PKG = true ∨ alias_name a ∈ imports ca)
  ∧ func_defs ca' = func_defs ca ∧ calls ca' = calls ca.
Proof.
  intros Hpost ca'. subst ca'. cbn [visit].
  destruct (visit_Import_frame ROOT_PKG (pre ++ a :: post) ca)
    as (_ & _ & _ & Hdefs & Hcalls).
  split; [|split; [|done]].
  - unfold visit_Import. rewrite foldl_app. cbn [foldl].
    rewrite import_aliases_keep by done.
    rewrite import_alias_aliases. apply lookup_insert_eq.
  - rewrite imports_visit_Import, elem_of_union, elem_of_list_to_set.
    rewrite list_elem_of_filter, list_elem_of_fmap.
    split; [tauto|]. intros [Hin|Hin]; [left|by right].
    split; [done|]. exists a. split; [done|]. set_solver.
Qed.

Lemma import_recorded_witness :
  let ca' := visit "pkg" (Import ([Alias "os" None] ++ Alias "pkg.sub" None
                                    :: [Alias "pkg.util" (Some "u")]))
               (init "pkg.main") in
  aliases ca' !! "pkg.sub" = Some "pkg.sub"
  ∧ ("pkg.sub" ∈ imports ca'
     ↔ PyStr.startswith "pkg.sub" "pkg" = true ∨ "pkg.sub" ∈ imports (init "pkg.main"))
  ∧ func_defs ca' = func_defs (init "pkg.main") ∧ calls ca' = calls (init "pkg.main").
Proof.
  apply (import_recorded "pkg" [Alias "os" None] [Alias "pkg.util" (Some "u")]
           (Alias "pkg.sub" None) (init "pkg.main")).
  repeat constructor. discriminate.
Defined.

(** X4. A traversal of any tree returns with the module name, the current
    function and the current class it was entered with: the contexts that
    class and function definitions set are restored on the way out,
    whatever the nesting. *)
Theorem traversal_restores_context (ROOT_PKG : string) (n : node) (ca : CodeAnalyzer) :
  modname (visit ROOT_PKG n ca) = modname ca
  ∧ current_fn (visit ROOT_PKG n ca) = current_fn ca
  ∧ current_class (visit ROOT_PKG n ca) = current_class ca
  ∧ caller_of (visit ROOT_PKG n ca) = caller_of ca.
Proof.
  pose proof (visit_context ROOT_PKG n ca) as Hctx.
  pose proof (caller_of_context _ _ Hctx) as Hcaller.
  destruct Hctx as (? & ? & ?). done.
Qed.

(** ** Per-File Analyzer: what a traversal adds *)

Section Growth.
Variable ROOT_PKG : string.

Lemma grows_refl (ca : CodeAnalyzer) : grows ca ca.
Proof. unfold grows. done. Qed.

Lemma grows_trans (ca1 ca2 ca3 : CodeAnalyzer) :
  grows ca1 ca2 → grows ca2 ca3 → grows ca1 ca3.
Proof.
  intros (Hc & Hi & Ha & Hf) (Hc' & Hi' & Ha' & Hf'). unfold grows.
  split; [by etrans|]. split; [by etrans|]. split; by etrans.
Qed.

Lemma grows_record_call (func : node) (ca : CodeAnalyzer) :
  grows ca (record_call ROOT_PKG func ca).
Proof.
  unfold record_call. destruct (resolve_callee _ _ _) as [q|]; [|apply grows_refl].
  destruct (PyStr.truthy q); [|apply grows_refl].
  unfold grows. cbn. split; [by apply prefix_app_r|done].
Qed.

Lemma grows_visit_list (l : list node) :
  Forall (λ c, ∀ ca, grows ca (visit ROOT_PKG c ca)) l →
  ∀ ca, grows ca (visit_list ROOT_PKG l ca).
Proof.
  induction 1 as [|c l Hc _ IH]; intros ca; [apply grows_refl|].
  rewrite visit_list_cons. eapply grows_trans; [apply Hc|apply IH].
Qed.

Lemma grows_visit (n : node) (ca : CodeAnalyzer) : grows ca (visit ROOT_PKG n ca).
Proof.
  revert ca. induction n as [names|module names level|name children H|name children H
                  |func args IHn H|id|value attr IHn|children H]
    using node_induction; intros ca.
  - destruct (visit_Import_frame ROOT_PKG names ca) as (_ & _ & _ & Hd & Hc).
    unfold grows. cbn [visit]. rewrite Hd, Hc. split; [done|].
    split; [|split; [apply import_aliases_dom|done]].
    rewrite imports_visit_Import. set_solver.
  - destruct (visit_ImportFrom_frame ROOT_PKG module names level ca)
      as (_ & _ & _ & Hd & Hc).
    unfold grows. cbn [visit]. rewrite Hd, Hc. split; [done|].
    split; [apply from_aliases_imports_mono|].
    split; [apply from_aliases_dom|done].
  - rewrite visit_ClassDef.
    apply (grows_visit_list children H (set_current_class (Some name) ca)).
  - rewrite visit_FunctionDef. cbv zeta.
    eapply grows_trans; [|apply (grows_visit_list children H)].
    unfold grows. cbn. rewrite dom_insert_L. set_solver.
  - rewrite visit_Call.
    eapply grows_trans; [apply grows_record_call|].
    apply (grows_visit_list (func :: args) (List.Forall_cons _ _ _ IHn H)).
  - apply grows_refl.
  - apply IHn.
  - rewrite visit_Other. by apply grows_visit_list.
Qed.

Lemma count_calls_all_eq (l : list node) :
  (fix go (l : list node) {struct l} : nat :=
     match l with
     | [] => 0
     | c :: l' => count_calls c + go l'
     end) l = count_calls_list l.
Proof. induction l as [|c l IH]; [done|]. simpl. by rewrite IH. Qed.

Lemma length_calls_record_call (func : node) (ca : CodeAnalyzer) :
  length (calls (record_call ROOT_PKG func ca)) ≤ S (length (calls ca)).
Proof.
  unfold record_call. destruct (resolve_callee _ _ _) as [q|]; [|lia].
  destruct (PyStr.truthy q); [|lia]. cbn. rewrite length_app. simpl. lia.
Qed.

Lemma length_calls_visit_list (l : list node) :
  Forall (λ c, ∀ ca, length (calls (visit ROOT_PKG c ca))
                     ≤ length (calls ca) + count_calls c) l →
  ∀ ca, length (calls (visit_list ROOT_PKG l ca))
        ≤ length (calls ca) + count_calls_list l.
Proof.
  induction 1 as [|c l Hc _ IH]; intros ca; [simpl; lia|].
  rewrite visit_list_cons. unfold count_calls_list in *. cbn [foldr].
  specialize (IH (visit ROOT_PKG c ca)). specialize (Hc ca). lia.
Qed.

Lemma length_calls_visit (n : node) (ca : CodeAnalyzer) :
  length (calls (visit ROOT_PKG n ca)) ≤ length (calls ca) + count_calls n.
Proof.
  revert ca. induction n as [names|module names level|name children H|name children H
                  |func args IHn H|id|value attr IHn|children H]
    using node_induction; intros ca.
  - destruct (visit_Import_frame ROOT_PKG names ca) as (_ & _ & _ & _ & Hc).
    cbn [visit]. rewrite Hc. lia.
  - destruct (visit_ImportFrom_frame ROOT_PKG module names level ca)
      as (_ & _ & _ & _ & Hc).
    cbn [visit]. rewrite Hc. lia.
  - rewrite visit_ClassDef. cbn [count_calls calls set_current_class].
    rewrite count_calls_all_eq.
    apply (length_calls_visit_list children H (set_current_class (Some name) ca)).
  - rewrite visit_FunctionDef. cbv zeta. cbn [count_calls calls set_current_fn].
    rewrite count_calls_all_eq.
    apply (length_calls_visit_list children H
             (set_current_fn _ (define_func name _ ca))).
  - rewrite visit_Call. cbn [count_calls]. rewrite count_calls_all_eq.
    pose proof (length_calls_visit_list (func :: args)
                  (List.Forall_cons _ _ _ IHn H) (record_call ROOT_PKG func ca)).
    pose proof (length_calls_record_call func ca).
    unfold count_calls_list in *. cbn [foldr] in *. lia.
  - simpl. lia.
  - apply IHn.
  - rewrite visit_Other. cbn [count_calls]. rewrite count_calls_all_eq.
    by apply length_calls_visit_list.
Qed.

End Growth.

(** X5. A traversal only adds: the calls recorded before it stay, in
    order, at the front of the list; no import leaves the import set; and
    every alias and every function name bound before it stays bound. *)
Theorem analysis_only_grows (ROOT_PKG : string) (n : node) (ca : CodeAnalyzer) :
  calls ca `prefix_of` calls (visit ROOT_PKG n ca)
  ∧ imports ca ⊆ imports (visit ROOT_PKG n ca)
  ∧ dom (aliases ca) ⊆ dom (aliases (visit ROOT_PKG n ca))
  ∧ dom (func_defs ca) ⊆ dom (func_defs (visit ROOT_PKG n ca)).
Proof. apply grows_visit. Qed.

(** X6. Each call site contributes at most one call pair: the analysis of
    a file records no more pairs than the tree has call expressions, and a
    tree without call expressions records none. *)
Theorem call_pairs_bounded (ROOT_PKG m : string) (tree : node) :
  length (calls (analyze ROOT_PKG m tree)) ≤ count_calls tree.
Proof. apply (length_calls_visit ROOT_PKG tree (init m)). Qed.

(** ** Per-File Analyzer: the kinds of the names it records *)

Section KindedFacts.
Variable ROOT_PKG : string.

Lemma startswith_trans (s p q : string) :
  PyStr.startswith s p = true → PyStr.startswith p q = true →
  PyStr.startswith s q = true.
Proof.
  intros [r1 ->]%startswith_spec [r2 ->]%startswith_spec.
  rewrite app_assoc. apply startswith_app.
Qed.

Lemma startswith_app_l (s p rest : string) :
  PyStr.startswith s p = true → PyStr.startswith (s +:+ rest) p = true.
Proof.
  intros [r ->]%startswith_spec. rewrite app_assoc. apply startswith_app.
Qed.

Lemma func_qual_local (m : string) (cls : option string) (name : string) :
  PyStr.startswith (func_qual m cls name) ("function:" +:+ m +:+ ".") = true.
Proof.
  apply startswith_spec. unfold func_qual.
  destruct cls as [[|a c]|]; cbn [PyStr.truthy].
  - exists name. by rewrite !app_assoc.
  - exists (String a c +:+ "." +:+ name). by rewrite !app_assoc.
  - exists name. by rewrite !app_assoc.
Qed.

Lemma resolve_callee_kinded (m : string) (func : node) (ca : CodeAnalyzer) (q : string) :
  kinded_facts ROOT_PKG m ca → resolve_callee ROOT_PKG func ca = Some q →
  resolved_callee ROOT_PKG m q.
Proof.
  intros [Hdefs _]. destruct func as [| | | | |name|value attr|]; try done.
  - simpl. destruct (func_defs ca !! name) as [q'|] eqn:E.
    + intros [= <-]. left. by apply (Hdefs name).
    + destruct (aliases ca !! name) as [full|]; [|done].
      destruct (PyStr.startswith full ROOT_PKG) eqn:Hfull; [|done].
      destruct (PyStr.contains "." full) eqn:Hdot; intros [= <-];
        right; exists full; split; auto.
  - destruct value; try done. simpl.
    destruct (aliases ca !! id) as [full|]; [|done].
    destruct (PyStr.startswith full ROOT_PKG) eqn:Hfull; [|done].
    intros [= <-]. right. exists (full +:+ "." +:+ attr).
    split; [by apply startswith_app_l|]. by left.
Qed.

Lemma record_call_kinded (m : string) (func : node) (ca : CodeAnalyzer) :
  local_caller m (caller_of ca) → kinded_facts ROOT_PKG m ca →
  kinded_facts ROOT_PKG m (record_call ROOT_PKG func ca).
Proof.
  intros Hc Hca. unfold record_call.
  destruct (resolve_callee ROOT_PKG func ca) as [q|] eqn:E; [|done].
  destruct (PyStr.truthy q); [|done].
  pose proof (resolve_callee_kinded m func ca q Hca E) as Hq.
  destruct Hca as [Hdefs Hcalls]. split; [done|]. cbn [calls append_call].
  apply Forall_app. split; [done|].
  apply List.Forall_cons; [by split|constructor].
Qed.

Lemma visit_list_kinded (m : string) (l : list node) :
  Forall (λ c, ∀ ca, modname ca = m → local_caller m (caller_of ca) →
                     kinded_facts ROOT_PKG m ca →
                     kinded_facts ROOT_PKG m (visit ROOT_PKG c ca)) l →
  ∀ ca, modname ca = m → local_caller m (caller_of ca) →
        kinded_facts ROOT_PKG m ca →
        kinded_facts ROOT_PKG m (visit_list ROOT_PKG l ca).
Proof.
  induction 1 as [|c l Hc _ IH]; intros ca Hm Hcaller Hca; [done|].
  rewrite visit_list_cons.
  pose proof (visit_context ROOT_PKG c ca) as Hctx.
  apply IH; [by destruct Hctx as (-> & _)| |by apply Hc].
  by rewrite (caller_of_context _ _ Hctx).
Qed.

Lemma visit_kinded (m : string) (n : node) (ca : CodeAnalyzer) :
  modname ca = m → local_caller m (caller_of ca) →
  kinded_facts ROOT_PKG m ca → kinded_facts ROOT_PKG m (visit ROOT_PKG n ca).
Proof.
  revert ca. induction n as [names|module names level|name children H|name children H
                  |func args IHn H|id|value attr IHn|children H]
    using node_induction; intros ca Hm Hcaller Hca.
  - destruct (visit_Import_frame ROOT_PKG names ca) as (_ & _ & _ & Hd & Hc).
    unfold kinded_facts. cbn [visit]. by rewrite Hd, Hc.
  - destruct (visit_ImportFrom_frame ROOT_PKG module names level ca)
      as (_ & _ & _ & Hd & Hc).
    unfold kinded_facts. cbn [visit]. by rewrite Hd, Hc.
  - rewrite visit_ClassDef.
    by apply (visit_list_kinded m children H (set_current_class (Some name) ca)).
  - rewrite visit_FunctionDef. cbv zeta.
    set (qual := func_qual (modname ca) (current_class ca) name).
    assert (Hqual : PyStr.startswith qual ("function:" +:+ m +:+ ".") = true)
      by (unfold qual; rewrite Hm; apply func_qual_local).
    apply (visit_list_kinded m children H
             (set_current_fn (Some qual) (define_func name qual ca))).
    + done.
    + right. unfold caller_of. cbn [current_fn set_current_fn PyStr.or_else].
      unfold qual. by rewrite truthy_func_qual.
    + destruct Hca as [Hdefs Hcalls]. split; [|done].
      cbn [func_defs set_current_fn define_func].
      by apply map_Forall_insert_2.
  - rewrite visit_Call.
    destruct (record_call_frame ROOT_PKG func ca) as (Hm' & Hf' & Hc' & _).
    apply (visit_list_kinded m (func :: args) (List.Forall_cons _ _ _ IHn H)).
    + by rewrite Hm'.
    + rewrite (caller_of_context ca); [done|]. by split.
    + by apply record_call_kinded.
  - done.
  - by apply IHn.
  - rewrite visit_Other. by apply visit_list_kinded.
Qed.

Lemma analyze_kinded (m : string) (tree : node) :
  kinded_facts ROOT_PKG m (analyze ROOT_PKG m tree).
Proof.
  apply visit_kinded; [done|by left|].
  split; [apply map_Forall_empty|constructor].
Qed.

End KindedFacts.

(** X7. In the facts of one file, every function of the symbol table is a
    function of that file's module; every call pair leaves from the module
    itself or from one of its functions; and every callee is a function of
    the module, or a function or a dot-free module whose name passes the
    intra-package test. No pair names anything of another kind. *)
Theorem call_pairs_kinded (ROOT_PKG m : string) (tree : node) :
  (∀ name q, func_defs (analyze ROOT_PKG m tree) !! name = Some q →
             PyStr.startswith q ("function:" +:+ m +:+ ".") = true)
  ∧ (∀ caller callee, (caller, callee) ∈ calls (analyze ROOT_PKG m tree) →
       local_caller m caller ∧ resolved_callee ROOT_PKG m callee).
Proof.
  destruct (analyze_kinded ROOT_PKG m tree) as [Hdefs Hcalls]. split.
  - intros name q Hq. by apply (Hdefs name).
  - intros caller callee Hin.
    by apply (proj1 (Forall_forall _ _) Hcalls (caller, callee)).
Qed.

Lemma call_pairs_kinded_witness :
  local_caller "app.main" "function:app.main.g"
  ∧ resolved_callee "app" "app.main" "function:app.util.helper".
Proof.
  destruct (call_pairs_kinded "app" "app.main"
              (Other [ImportFrom (Some "app") [Alias "util" None] 0;
                      FunctionDef "g" [Other [Call (Attribute (Name "util") "helper") []]]]))
    as (_ & Hcalls).
  apply (Hcalls "function:app.main.g" "function:app.util.helper").
  vm_compute. left.
Defined.

(** X8. Import and call compose: after [from M import name] (no wildcard,
    [M] not empty once resolved) whose qualified name [M.name] is
    intra-package, a call of the bound name, when the file defines no
    function of that name, records the callee [function:M.name], and a call
    of an attribute [attr] of it records [function:M.name.attr]. A
    from-imported name is never recorded as a module. *)
Theorem from_import_then_call (ROOT_PKG : string) (module : option string)
    (level : nat) (a : alias) (attr : string) (args : list node) (ca : CodeAnalyzer) :
  alias_name a ≠ "*" →
  let M := from_module (modname ca) module level in
  let ca' := visit ROOT_PKG (ImportFrom module [a] level) ca in
  PyStr.truthy M = true →
  PyStr.startswith (M +:+ "." +:+ alias_name a) ROOT_PKG = true →
  (func_defs ca !! local_name a = None →
   visit ROOT_PKG (Call (Name (local_name a)) args) ca'
   = visit_list ROOT_PKG args
       (append_call (caller_of ca, "function:" +:+ M +:+ "." +:+ alias_name a) ca'))
  ∧ visit ROOT_PKG (Call (Attribute (Name (local_name a)) attr) args) ca'
    = visit_list ROOT_PKG args
        (append_call (caller_of ca,
                      "function:" +:+ (M +:+ "." +:+ alias_name a) +:+ "." +:+ attr) ca').
Proof.
  intros Hstar M ca' HM Hintra.
  assert (Halias : aliases ca' !! local_name a = Some (M +:+ "." +:+ alias_name a)).
  { subst ca'. cbn [visit]. unfold visit_ImportFrom. cbn [foldl]. fold M.
    rewrite from_alias_aliases, decide_False by done.
    rewrite lookup_insert_eq. unfold from_full. by rewrite HM. }
  destruct (visit_ImportFrom_frame ROOT_PKG module [a] level ca)
    as (Hm & Hf & _ & Hd & _).
  change (visit_ImportFrom ROOT_PKG module [a] level ca) with ca' in Hm, Hf, Hd.
  assert (Hcaller : caller_of ca' = caller_of ca)
    by (unfold caller_of; by rewrite Hm, Hf).
  split.
  - intros Hdef. rewrite visit_Call_Name.
    unfold record_call. cbn [resolve_callee]. rewrite Hd, Hdef, Halias, Hintra.
    rewrite contains_app.
    change (PyStr.contains "." ("." +:+ alias_name a)) with true.
    rewrite orb_true_r. by rewrite Hcaller.
  - rewrite visit_Call_Attribute.
    unfold record_call. cbn [resolve_callee]. rewrite Halias, Hintra.
    by rewrite Hcaller.
Qed.

Lemma from_import_then_call_witness :
  let ca' := visit "pkg" (ImportFrom (Some "sub") [Alias "fn" (Some "f")] 1)
               (init "pkg.main") in
  (func_defs (init "pkg.main") !! "f" = None →
   visit "pkg" (Call (Name "f") []) ca'
   = visit_list "pkg" []
       (append_call (caller_of (init "pkg.main"),
                     "function:" +:+ "pkg.sub" +:+ "." +:+ "fn") ca'))
  ∧ visit "pkg" (Call (Attribute (Name "f") "x") []) ca'
    = visit_list "pkg" []
        (append_call (caller_of (init "pkg.main"),
                      "function:" +:+ ("pkg.sub" +:+ "." +:+ "fn") +:+ "." +:+ "x") ca').
Proof.
  apply (from_import_then_call "pkg" (Some "sub") 1 (Alias "fn" (Some "f")) "x" []
           (init "pkg.main")); [discriminate | reflexivity | reflexivity].
Defined.

(** ** Graph Builder: the nodes and the edges of the built graph *)

Section BuiltGraph.

Lemma elem_of_result_nodes (fpath : Path) (m : string) (ca : CodeAnalyzer) (n : string) :
  n ∈ result_nodes (fpath, m, ca)
  ↔ n = "file:" +:+ m ∨ n = "module:" +:+ m
    ∨ (∃ im, im ∈ imports ca ∧ n = "module:" +:+ im)
    ∨ (∃ name, func_defs ca !! name = Some n)
    ∨ (∃ c, c ∈ calls ca ∧ (n = c.1 ∨ n = c.2)).
Proof.
  unfold result_nodes.
  rewrite !elem_of_union, !elem_of_list_to_set, !elem_of_singleton.
  rewrite !list_elem_of_fmap. split.
  - intros [[[[[->| ->]|(im & -> & Him)]|([k q] & -> & Hq)]|(c & -> & Hc)]|(c & -> & Hc)].
    + by left.
    + right. by left.
    + right. right. left. exists im. split; [|done]. by apply elem_of_elements.
    + right. right. right. left. exists k. by apply elem_of_map_to_list.
    + right. right. right. right. exists c. auto.
    + right. right. right. right. exists c. auto.
  - intros [->|[->|[(im & Him & ->)|[(k & Hk)|(c & Hc & [->| ->])]]]].
    + left. left. left. left. by left.
    + left. left. left. left. by right.
    + left. left. left. right. exists im. split; [done|]. by apply elem_of_elements.
    + left. left. right. exists (k, n). split; [done|]. by apply elem_of_map_to_list.
    + left. right. by exists c.
    + right. by exists c.
Qed.

Lemma elem_of_result_edges (fpath : Path) (m : string) (ca : CodeAnalyzer) (u v : string) :
  (u, v) ∈ result_edges (fpath, m, ca)
  ↔ (u = "file:" +:+ m ∧ v = "module:" +:+ m)
    ∨ (u = "module:" +:+ m ∧ ∃ im, im ∈ imports ca ∧ v = "module:" +:+ im)
    ∨ (u = "module:" +:+ m ∧ ∃ name, func_defs ca !! name = Some v)
    ∨ (u, v) ∈ calls ca.
Proof.
  unfold result_edges.
  rewrite !elem_of_union, !elem_of_list_to_set, !elem_of_singleton.
  rewrite !list_elem_of_fmap. split.
  - intros [[[[= -> ->]|(im & [= -> ->] & Him)]|(q & [= -> ->] & Hq)]|Hc].
    + by left.
    + right. left. split; [done|]. exists im. split; [|done]. by apply elem_of_elements.
    + right. right. left. split; [done|].
      apply list_elem_of_fmap in Hq as ([k q'] & -> & Hq).
      exists k. by apply elem_of_map_to_list.
    + by repeat right.
  - intros [[-> ->]|[[-> (im & Him & ->)]|[[-> (k & Hk)]|Hc]]].
    + left. left. by left.
    + left. left. right. exists im. split; [done|]. by apply elem_of_elements.
    + left. right. exists v. split; [done|].
      apply list_elem_of_fmap. exists (k, v). split; [done|].
      by apply elem_of_map_to_list.
    + by right.
Qed.

Lemma analyze_files_elem (ROOT_PKG : string) (root_dir : Path)
    (files : list (Path * node)) (rs : list result)
    (fpath : Path) (m : string) (ca : CodeAnalyzer) :
  analyze_files ROOT_PKG root_dir files = Some rs →
  (fpath, m, ca) ∈ rs
  ↔ ∃ tree, (fpath, tree) ∈ files ∧ module_name ROOT_PKG fpath root_dir = Some m
            ∧ ca = analyze ROOT_PKG m tree.
Proof.
  revert rs. induction files as [|[f tree] files IH]; intros rs H.
  - injection H as <-. split; [by intros ?%elem_of_nil|].
    by intros (? & ?%elem_of_nil & _).
  - simpl in H. destruct (module_name ROOT_PKG f root_dir) as [m'|] eqn:Em; [|done].
    simpl in H. destruct (analyze_files _ _ _) as [rs'|]; [|done]. simpl in H.
    injection H as <-. rewrite elem_of_cons, (IH rs' eq_refl). split.
    + intros [[= -> -> ->]|(t & Ht & Hm & ->)].
      * exists tree. split; [by left|done].
      * exists t. split; [by right|done].
    + intros (t & [[= -> ->]|Ht]%elem_of_cons & Hm & ->).
      * left. congruence.
      * right. by exists t.
Qed.

End BuiltGraph.

(** X9. The built graph has exactly the nodes and the edges that the facts
    of the files account for. A node is the file node or the module node
    of a file, the module node of one of its imports, one of its functions,
    or an end of one of its call pairs; an edge joins a file to its module,
    a module to an import or to a function of its symbol table, or is a
    call pair. Nothing else is in the graph. *)
Theorem build_graph_exact (ROOT_PKG : string) (root_dir : Path)
    (files : list (Path * node)) (G : DiGraph) :
  build_graph ROOT_PKG root_dir files = Some G →
  (∀ n, n ∈ dom (nodes G)
     ↔ ∃ fpath tree m,
         (fpath, tree) ∈ files ∧ module_name ROOT_PKG fpath root_dir = Some m
         ∧ let ca := analyze ROOT_PKG m tree in
           n = "file:" +:+ m ∨ n = "module:" +:+ m
           ∨ (∃ im, im ∈ imports ca ∧ n = "module:" +:+ im)
           ∨ (∃ name, func_defs ca !! name = Some n)
           ∨ (∃ c, c ∈ calls ca ∧ (n = c.1 ∨ n = c.2)))
  ∧ (∀ u v, (u, v) ∈ dom (edges G)
       ↔ ∃ fpath tree m,
           (fpath, tree) ∈ files ∧ module_name ROOT_PKG fpath root_dir = Some m
           ∧ let ca := analyze ROOT_PKG m tree in
             (u = "file:" +:+ m ∧ v = "module:" +:+ m)
             ∨ (u = "module:" +:+ m ∧ ∃ im, im ∈ imports ca ∧ v = "module:" +:+ im)
             ∨ (u = "module:" +:+ m ∧ ∃ name, func_defs ca !! name = Some v)
             ∨ (u, v) ∈ calls ca).
Proof.
  unfold build_graph. intros H.
  destruct (analyze_files ROOT_PKG root_dir files) as [rs|] eqn:Hrs; [|done].
  simpl in H. destruct (aggregate_Some rs G H) as (Hn & He & _).
  split.
  - intros n. rewrite Hn, elem_of_union_list. split.
    + intros (X & ([[fpath m] ca] & -> & Hr)%list_elem_of_fmap & HX).
      apply (analyze_files_elem _ _ _ _ _ _ _ Hrs) in Hr as (tree & Hin & Hm & ->).
      exists fpath, tree, m. split; [done|]. split; [done|].
      by apply elem_of_result_nodes in HX.
    + intros (fpath & tree & m & Hin & Hm & Hcase).
      exists (result_nodes (fpath, m, analyze ROOT_PKG m tree)). split.
      * apply list_elem_of_fmap. eexists. split; [done|].
        apply (analyze_files_elem _ _ _ _ _ _ _ Hrs). by exists tree.
      * by apply elem_of_result_nodes.
  - intros u v. rewrite He, elem_of_union_list. split.
    + intros (X & ([[fpath m] ca] & -> & Hr)%list_elem_of_fmap & HX).
      apply (analyze_files_elem _ _ _ _ _ _ _ Hrs) in Hr as (tree & Hin & Hm & ->).
      exists fpath, tree, m. split; [done|]. split; [done|].
      by apply elem_of_result_edges in HX.
    + intros (fpath & tree & m & Hin & Hm & Hcase).
      exists (result_edges (fpath, m, analyze ROOT_PKG m tree)). split.
      * apply list_elem_of_fmap. eexists. split; [done|].
        apply (analyze_files_elem _ _ _ _ _ _ _ Hrs). by exists tree.
      * by apply elem_of_result_edges.
Qed.

Lemma build_graph_exact_witness :
  let files := [(["/"; "proj"; "app"; "main.py"],
                 Other [Other [Call (Attribute (Name "util") "helper") []]])] in
  let G := default nx.empty (build_graph "app" ["/"; "proj"; "app"] files) in
  (∀ n, n ∈ dom (nodes G)
     ↔ ∃ fpath tree m,
         (fpath, tree) ∈ files
         ∧ module_name "app" fpath ["/"; "proj"; "app"] = Some m
         ∧ let ca := analyze "app" m tree in
           n = "file:" +:+ m ∨ n = "module:" +:+ m
           ∨ (∃ im, im ∈ imports ca ∧ n = "module:" +:+ im)
           ∨ (∃ name, func_defs ca !! name = Some n)
           ∨ (∃ c, c ∈ calls ca ∧ (n = c.1 ∨ n = c.2)))
  ∧ (∀ u v, (u, v) ∈ dom (edges G)
       ↔ ∃ fpath tree m,
           (fpath, tree) ∈ files
           ∧ module_name "app" fpath ["/"; "proj"; "app"] = Some m
           ∧ let ca := analyze "app" m tree in
             (u = "file:" +:+ m ∧ v = "module:" +:+ m)
             ∨ (u = "module:" +:+ m ∧ ∃ im, im ∈ imports ca ∧ v = "module:" +:+ im)
             ∨ (u = "module:" +:+ m ∧ ∃ name, func_defs ca !! name = Some v)
             ∨ (u, v) ∈ calls ca).
Proof.
  intros files G. apply (build_graph_exact "app" ["/"; "proj"; "app"] files G).
  reflexivity.
Defined.

(** ** Graph Builder: node attributes *)

Section NodeAttributes.
Implicit Types (G : DiGraph) (n : string) (attr : gmap string value).

Lemma partition_function (rest : string) :
  PyStr.partition ":" ("function:" +:+ rest) = Some ("function", rest).
Proof. reflexivity. Qed.

Lemma partition_module (rest : string) :
  PyStr.partition ":" ("module:" +:+ rest) = Some ("module", rest).
Proof. reflexivity. Qed.

Lemma partition_file (rest : string) :
  PyStr.partition ":" ("file:" +:+ rest) = Some ("file", rest).
Proof. reflexivity. Qed.

Lemma canonical_function (rest : string) :
  canonical_attr ("function:" +:+ rest) (labelled (last_component rest) STYLE_function).
Proof. unfold canonical_attr. rewrite partition_function. by rewrite decide_True. Qed.

Lemma canonical_module (rest : string) :
  canonical_attr ("module:" +:+ rest) (labelled rest STYLE_module).
Proof.
  unfold canonical_attr. rewrite partition_module.
  rewrite decide_False by done. by rewrite decide_True.
Qed.

Lemma canonical_file (rest lbl : string) :
  canonical_attr ("file:" +:+ rest) (labelled lbl STYLE_file).
Proof.
  unfold canonical_attr. rewrite partition_file.
  rewrite !decide_False by done. rewrite decide_True by done. by exists lbl.
Qed.

Lemma labelled_union (l l' : string) (style : gmap string value) :
  labelled l style ∪ labelled l' style = labelled l style.
Proof.
  apply map_eq. intros i. rewrite lookup_union. unfold labelled.
  destruct (decide (i = "label")) as [->|Hi].
  - by rewrite !lookup_insert_eq.
  - rewrite !lookup_insert_ne by done. by destruct (style !! i).
Qed.

(** Updating a node with the attributes of its kind replaces them. *)
Lemma canonical_update n attr old :
  canonical_attr n attr → canonical_attr n old → attr ∪ old = attr.
Proof.
  unfold canonical_attr. destruct (PyStr.partition ":" n) as [[kind name]|]; [|done].
  repeat case_decide; try done.
  - intros -> ->. apply (idemp_L (∪)).
  - intros -> ->. apply (idemp_L (∪)).
  - intros [l ->] [l' ->]. apply labelled_union.
Qed.

Lemma styled_add_node n attr G :
  canonical_attr n attr → styled G → styled (nx.add_node n attr G).
Proof.
  intros Hattr HG n' a. unfold nx.add_node. cbn [nodes].
  rewrite lookup_insert. case_decide as Hn; [|apply HG].
  subst n'. intros [= <-].
  destruct (nodes G !! n) as [old|] eqn:E; simpl.
  - by rewrite (canonical_update n attr old Hattr (HG n old E)).
  - by rewrite (right_id_L ∅ (∪)).
Qed.

Lemma styled_add_edge (u v : string) attr G :
  u ∈ dom (nodes G) → v ∈ dom (nodes G) →
  styled G → styled (nx.add_edge u v attr G).
Proof. intros Hu Hv HG n a. by rewrite nodes_add_edge_present; [apply HG|..]. Qed.

Lemma styled_empty : styled nx.empty.
Proof. intros n a Ha. cbn in Ha. by rewrite lookup_empty in Ha. Qed.

Lemma styled_ensure_node n G G' :
  PyStr.startswith n "function:" = true ∨ PyStr.startswith n "module:" = true →
  ensure_node n G = Some G' → styled G → styled G'.
Proof.
  intros Hkind Hens HG.
  destruct (nodes G !! n) as [old|] eqn:E.
  - rewrite ensure_node_present in Hens by (apply elem_of_dom; eauto).
    by injection Hens as <-.
  - destruct (ensure_node_Some n G G' Hens) as (_ & _ & _ & Hother & Hnew).
    intros n' a. destruct (decide (n' = n)) as [->|Hne]; [|rewrite Hother by done; apply HG].
    destruct Hkind as [[rest ->]%startswith_spec|[rest ->]%startswith_spec].
    + rewrite (Hnew "function" rest E (partition_function rest)).
      intros [= <-]. apply canonical_function.
    + rewrite (Hnew "module" rest E (partition_module rest)).
      intros [= <-]. apply canonical_module.
Qed.

Lemma local_caller_kind (m s : string) :
  local_caller m s →
  PyStr.startswith s "function:" = true ∨ PyStr.startswith s "module:" = true.
Proof.
  intros [->|Hs]; [by right|left].
  apply (startswith_trans _ _ _ Hs). reflexivity.
Qed.

Lemma resolved_callee_kind (ROOT_PKG m s : string) :
  resolved_callee ROOT_PKG m s →
  PyStr.startswith s "function:" = true ∨ PyStr.startswith s "module:" = true.
Proof.
  intros [Hs|(full & _ & [->|[-> _]])]; [left|by left|by right].
  apply (startswith_trans _ _ _ Hs). reflexivity.
Qed.

Lemma styled_add_call (c : string * string) G G' :
  (PyStr.startswith c.1 "function:" = true ∨ PyStr.startswith c.1 "module:" = true) →
  (PyStr.startswith c.2 "function:" = true ∨ PyStr.startswith c.2 "module:" = true) →
  add_call G c = Some G' → styled G → styled G'.
Proof.
  intros H1 H2 Hc HG. unfold add_call in Hc.
  destruct (ensure_node c.1 G) as [G1|] eqn:E1; [|done]. simpl in Hc.
  destruct (ensure_node c.2 G1) as [G2|] eqn:E2; [|done]. simpl in Hc.
  injection Hc as <-.
  pose proof (extends_ensure_node _ _ _ E1) as (Hd1 & _).
  pose proof (extends_ensure_node _ _ _ E2) as (Hd2 & _).
  apply styled_add_edge; [rewrite Hd2, Hd1; set_solver|rewrite Hd2; set_solver|].
  eapply styled_ensure_node; [exact H2|exact E2|].
  exact (styled_ensure_node _ _ _ H1 E1 HG).
Qed.

Lemma styled_add_calls (cs : list (string * string)) G G' :
  Forall (λ c, (PyStr.startswith c.1 "function:" = true
                ∨ PyStr.startswith c.1 "module:" = true)
               ∧ (PyStr.startswith c.2 "function:" = true
                  ∨ PyStr.startswith c.2 "module:" = true)) cs →
  add_calls cs G = Some G' → styled G → styled G'.
Proof.
  intros Hcs. revert G. induction Hcs as [|c cs [H1 H2] _ IH]; intros G H HG.
  - by injection H as <-.
  - simpl in H. destruct (add_call G c) as [G1|] eqn:E1; [|done]. simpl in H.
    apply (IH G1 H). by eapply styled_add_call.
Qed.

Lemma styled_add_imports (mod_id : string) (ims : list string) G :
  mod_id ∈ dom (nodes G) → styled G →
  styled (foldl (add_import_edge mod_id) G ims).
Proof.
  revert G. induction ims as [|im ims IH]; intros G Hm HG; [done|].
  cbn [foldl]. apply IH.
  - by eapply extends_dom; [apply extends_add_import_edge|].
  - unfold add_import_edge.
    apply styled_add_edge; [rewrite dom_nodes_add_node; set_solver..|].
    apply styled_add_node; [apply canonical_module|done].
Qed.

Lemma styled_add_funcs (mod_id : string) (quals : list string) G G' :
  Forall (λ q, PyStr.startswith q "function:" = true) quals →
  mod_id ∈ dom (nodes G) → add_funcs mod_id quals G = Some G' →
  styled G → styled G'.
Proof.
  intros Hq. revert G. induction Hq as [|q quals Hq _ IH]; intros G Hm H HG.
  - by injection H as <-.
  - simpl in H. destruct (add_func mod_id G q) as [G1|] eqn:E1; [|done]. simpl in H.
    apply (IH G1); [by eapply extends_dom; [apply extends_add_func|]|done|].
    apply startswith_spec in Hq as [rest ->].
    unfold add_func in E1. rewrite partition_function in E1. simpl in E1.
    injection E1 as <-.
    apply styled_add_edge; [rewrite dom_nodes_add_node; set_solver..|].
    apply styled_add_node; [apply canonical_function|done].
Qed.

Lemma styled_add_result (ROOT_PKG : string) (fpath : Path) (m : string)
    (ca : CodeAnalyzer) G G' :
  kinded_facts ROOT_PKG m ca → add_result G (fpath, m, ca) = Some G' →
  styled G → styled G'.
Proof.
  intros [Hdefs Hcalls] H HG. unfold add_result in H.
  set (file_id := "file:" +:+ m) in *. set (mod_id := "module:" +:+ m) in *.
  set (G1 := nx.add_node file_id _ G) in *.
  set (G2 := nx.add_node mod_id _ G1) in *.
  set (G3 := nx.add_edge file_id mod_id _ G2) in *.
  set (G4 := foldl _ G3 _) in *.
  destruct (add_funcs mod_id _ G4) as [G5|] eqn:E5; [|done]. simpl in H.
  assert (S1 : styled G1) by (apply styled_add_node; [apply canonical_file|done]).
  assert (S2 : styled G2) by (apply styled_add_node; [apply canonical_module|done]).
  assert (D1 : dom (nodes G1) = {[file_id]} ∪ dom (nodes G))
    by apply dom_nodes_add_node.
  assert (D2 : dom (nodes G2) = {[mod_id]} ∪ dom (nodes G1))
    by apply dom_nodes_add_node.
  assert (D3 : dom (nodes G3) = {[file_id; mod_id]} ∪ dom (nodes G2))
    by apply dom_nodes_add_edge.
  assert (Hm2 : mod_id ∈ dom (nodes G2))
    by (rewrite D2; apply elem_of_union_l; by apply elem_of_singleton).
  assert (Hf2 : file_id ∈ dom (nodes G2)).
  { rewrite D2, D1. apply elem_of_union_r, elem_of_union_l.
    by apply elem_of_singleton. }
  assert (S3 : styled G3) by by apply styled_add_edge.
  assert (Hm3 : mod_id ∈ dom (nodes G3)) by (rewrite D3; by apply elem_of_union_r).
  assert (S4 : styled G4) by by apply styled_add_imports.
  assert (Hm4 : mod_id ∈ dom (nodes G4))
    by (eapply extends_dom; [by apply extends_add_imports|done]).
  assert (S5 : styled G5).
  { eapply styled_add_funcs; [|exact Hm4|exact E5|exact S4].
    apply Forall_fmap, Forall_forall. intros [k q] Hkq%elem_of_map_to_list.
    change (PyStr.startswith q "function:" = true).
    apply (startswith_trans _ _ _ (Hdefs k q Hkq)). reflexivity. }
  eapply styled_add_calls; [|exact H|exact S5].
  eapply Forall_impl; [exact Hcalls|]. intros c [Hc1 Hc2]. split.
  - by eapply local_caller_kind.
  - by eapply resolved_callee_kind.
Qed.

Lemma styled_aggregate_from (ROOT_PKG : string) (rs : list result) G G' :
  Forall (λ r, kinded_facts ROOT_PKG r.1.2 r.2) rs →
  aggregate_from rs G = Some G' → styled G → styled G'.
Proof.
  intros Hrs. revert G.
  induction Hrs as [|[[fpath m] ca] rs Hr _ IH]; intros G H HG.
  - by injection H as <-.
  - cbn [aggregate_from] in H.
    destruct (add_result G (fpath, m, ca)) as [G1|] eqn:E1; [|done].
    apply (IH G1 H). by eapply styled_add_result.
Qed.

Lemma analyze_files_kinded (ROOT_PKG : string) (root_dir : Path)
    (files : list (Path * node)) rs :
  analyze_files ROOT_PKG root_dir files = Some rs →
  Forall (λ r, kinded_facts ROOT_PKG r.1.2 r.2) rs.
Proof.
  revert rs. induction files as [|[f tree] files IH]; intros rs H.
  - injection H as <-. constructor.
  - simpl in H. destruct (module_name _ _ _) as [m|]; [|done]. simpl in H.
    destruct (analyze_files _ _ _) as [rs'|]; [|done]. simpl in H.
    injection H as <-. constructor; [apply analyze_kinded|by apply IH].
Qed.

Lemma build_graph_styled (ROOT_PKG : string) (root_dir : Path)
    (files : list (Path * node)) G :
  build_graph ROOT_PKG root_dir files = Some G → styled G.
Proof.
  unfold build_graph. intros H.
  destruct (analyze_files ROOT_PKG root_dir files) as [rs|] eqn:Hrs; [|done].
  simpl in H. eapply styled_aggregate_from; [|exact H|apply styled_empty].
  by eapply analyze_files_kinded.
Qed.

(** The attributes of its kind, spelled out. *)
Lemma canonical_attr_cases n attr :
  canonical_attr n attr →
  (∃ name, n = "function:" +:+ name
           ∧ attr = labelled (last_component name) STYLE_function)
  ∨ (∃ name, n = "module:" +:+ name ∧ attr = labelled name STYLE_module)
  ∨ (∃ name lbl, n = "file:" +:+ name ∧ attr = labelled lbl STYLE_file).
Proof.
  unfold canonical_attr.
  destruct (PyStr.partition ":" n) as [[kind name]|] eqn:E; [|done].
  apply partition_Some in E as [-> _].
  repeat case_decide; try done; subst kind.
  - intros ->. left. by exists name.
  - intros ->. right. left. by exists name.
  - intros [lbl ->]. right. right. by exists name, lbl.
Qed.

End NodeAttributes.

(** X10. Every node of the built graph, and of the pruned graph after it,
    is a function, module or file node, and carries the attributes of its
    kind: a function node the function style with the last dotted
    component of its name as label, a module node the module style with
    its name as label, a file node the file style with a label. The
    fallback of the placeholder code, a node with a label and no style,
    never occurs. *)
Theorem built_nodes_styled (ROOT_PKG : string) (ign : gset string) (root_dir : Path)
    (files : list (Path * node)) (G G' : DiGraph) :
  build_graph ROOT_PKG root_dir files = Some G →
  prune_graph ign G = Some G' →
  ∀ H, H = G ∨ H = G' →
  ∀ n attr, nodes H !! n = Some attr →
    (∃ name, n = "function:" +:+ name
             ∧ attr = labelled (last_component name) STYLE_function)
    ∨ (∃ name, n = "module:" +:+ name ∧ attr = labelled name STYLE_module)
    ∨ (∃ name lbl, n = "file:" +:+ name ∧ attr = labelled lbl STYLE_file).
Proof.
  intros HG HG' H HH n attr Hn. apply canonical_attr_cases.
  pose proof (build_graph_styled _ _ _ _ HG) as Hstyled.
  destruct HH as [-> | ->]; [by apply Hstyled|].
  destruct (prune_graph_tagged ign G) as (G'' & E & Hnodes & _).
  { intros n' [a Ha]%elem_of_dom.
    destruct (canonical_attr_cases _ _ (Hstyled n' a Ha))
      as [(? & -> & _)|[(? & -> & _)|(? & ? & -> & _)]]; reflexivity. }
  assert (G'' = G') as -> by congruence.
  rewrite Hnodes in Hn. destruct (pruned ign n); [done|]. by apply Hstyled.
Qed.

Lemma built_nodes_styled_witness :
  let G := default nx.empty
             (build_graph "app" ["/"; "proj"; "app"]
                [(["/"; "proj"; "app"; "main.py"],
                  Other [Other [Call (Attribute (Name "util") "helper") []]])]) in
  let n := "module:app.main" in
  let attr := labelled "app.main" STYLE_module in
  nodes G !! n = Some attr
  ∧ ((∃ name, n = "function:" +:+ name
              ∧ attr = labelled (last_component name) STYLE_function)
     ∨ (∃ name, n = "module:" +:+ name ∧ attr = labelled name STYLE_module)
     ∨ (∃ name lbl, n = "file:" +:+ name ∧ attr = labelled lbl STYLE_file)).
Proof.
  intros G n attr. split; [reflexivity|].
  apply (built_nodes_styled "app" IGNORE_MODULES ["/"; "proj"; "app"]
           [(["/"; "proj"; "app"; "main.py"],
             Other [Other [Call (Attribute (Name "util") "helper") []]])]
           G (default nx.empty (prune_graph IGNORE_MODULES G)) eq_refl eq_refl
           G (or_introl eq_refl) n attr).
  reflexivity.
Defined.

(** X11. Beyond the sets of nodes and edges, the attributes of every
    module and function node are independent of the order in which the
    files are listed: on two listings of the same files the pipeline
    returns graphs that agree on every node other than the file nodes. *)
Theorem node_attributes_order_independent (ROOT_PKG : string) (ign : gset string)
    (root_dir : Path) (files files' : list (Path * node)) :
  files ≡ₚ files' →
  Forall (λ f, is_Some (module_name ROOT_PKG f.1 root_dir)) files →
  ∃ G G', pipeline ROOT_PKG ign root_dir files = Some G
          ∧ pipeline ROOT_PKG ign root_dir files' = Some G'
          ∧ ∀ n, PyStr.startswith n "file:" = false → nodes G !! n = nodes G' !! n.
Proof.
  intros Hperm Hfiles.
  assert (Hfiles' : Forall (λ f, is_Some (module_name ROOT_PKG f.1 root_dir)) files')
    by by rewrite <- Hperm.
  destruct (build_graph_total _ _ _ Hfiles) as (rs & G0 & Hrs & HG0 & Hagg).
  destruct (build_graph_total _ _ _ Hfiles') as (rs' & G0' & Hrs' & HG0' & Hagg').
  assert (Hrsperm : rs ≡ₚ rs').
  { rewrite (analyze_files_fmap _ _ _ _ Hrs), (analyze_files_fmap _ _ _ _ Hrs').
    by apply fmap_Permutation. }
  assert (Hdom : dom (nodes G0) = dom (nodes G0')).
  { destruct (aggregate_Some _ _ Hagg) as (-> & _).
    destruct (aggregate_Some _ _ Hagg') as (-> & _).
    apply leibniz_equiv. by rewrite Hrsperm. }
  pose proof (build_graph_styled _ _ _ _ HG0) as Hst.
  pose proof (build_graph_styled _ _ _ _ HG0') as Hst'.
  assert (Hsame : ∀ n, PyStr.startswith n "file:" = false →
                       nodes G0 !! n = nodes G0' !! n).
  { intros n Hn.
    destruct (nodes G0 !! n) as [a|] eqn:E; destruct (nodes G0' !! n) as [a'|] eqn:E'.
    - destruct (canonical_attr_cases _ _ (Hst n a E))
        as [(x & -> & ->)|[(x & -> & ->)|(x & l & -> & _)]];
      destruct (canonical_attr_cases _ _ (Hst' _ a' E'))
        as [(y & Hy & ->)|[(y & Hy & ->)|(y & l' & Hy & _)]];
      try done; by simplify_eq.
    - apply (mk_is_Some _ a), elem_of_dom in E. rewrite Hdom in E.
      apply elem_of_dom in E as [? ?]. congruence.
    - apply (mk_is_Some _ a'), elem_of_dom in E'. rewrite <- Hdom in E'.
      apply elem_of_dom in E' as [? ?]. congruence.
    - done. }
  destruct (prune_graph_tagged ign G0) as (G & HG & Hn & _).
  { intros n. apply (aggregate_tagged rs G0 n); [by eapply analyze_files_tagged|done]. }
  destruct (prune_graph_tagged ign G0') as (G' & HG' & Hn' & _).
  { intros n. apply (aggregate_tagged rs' G0' n); [by eapply analyze_files_tagged|done]. }
  exists G, G'. unfold pipeline. rewrite HG0, HG0'. simpl.
  split; [done|]. split; [done|].
  intros n Hfile. rewrite Hn, Hn'. destruct (pruned ign n); [done|]. by apply Hsame.
Qed.

Lemma node_attributes_order_independent_witness :
  ∃ G G',
    pipeline "app" IGNORE_MODULES ["/"; "proj"; "app"]
      [(["/"; "proj"; "app"; "a"; "b.py"], Other [FunctionDef "f" []]);
       (["/"; "proj"; "app"; "a.b.py"], Other [Other [Call (Name "g") []]])] = Some G
    ∧ pipeline "app" IGNORE_MODULES ["/"; "proj"; "app"]
        [(["/"; "proj"; "app"; "a.b.py"], Other [Other [Call (Name "g") []]]);
         (["/"; "proj"; "app"; "a"; "b.py"], Other [FunctionDef "f" []])] = Some G'
    ∧ ∀ n, PyStr.startswith n "file:" = false → nodes G !! n = nodes G' !! n.
Proof.
  apply node_attributes_order_independent.
  - apply perm_swap.
  - repeat constructor; vm_compute; eauto.
Defined.

(** ** Pruner: errors, composition, dotted names *)

Section PrunerMore.
Implicit Types (G : DiGraph) (n u v : string) (ign : gset string).

Lemma to_remove_None ign (ns : list string) :
  to_remove ign ns = None ↔ ∃ n, n ∈ ns ∧ PyStr.contains ":" n = false.
Proof.
  induction ns as [|n ns IH].
  - split; [done|]. by intros (? & ?%elem_of_nil & _).
  - simpl. unfold qualified_name.
    destruct (PyStr.partition ":" n) as [[kind name]|] eqn:E; simpl.
    + assert (Hn : PyStr.contains ":" n = true)
        by (apply partition_is_Some; eauto).
      destruct (to_remove ign ns) as [l|] eqn:El; simpl.
      * split; [done|]. intros (x & [->|Hx]%elem_of_cons & Hc); [congruence|].
        assert (Some l = None) as Hnone by (apply IH; eauto). done.
      * split; [|done]. intros _. destruct (proj1 IH eq_refl) as (x & Hx & Hc).
        exists x. split; [by right|done].
    + split; [|done]. intros _. exists n. split; [by left|].
      by apply partition_None.
Qed.

Lemma ignored_union ign1 ign2 (name : string) :
  ignored (ign1 ∪ ign2) name = ignored ign1 name || ignored ign2 name.
Proof.
  apply eq_true_iff_eq. rewrite orb_true_iff, !ignored_spec.
  unfold matches_entry. split.
  - intros [[?|?]%elem_of_union|(i & rest & [?|?]%elem_of_union & ->)]; eauto 8.
  - intros [[?|(i & rest & ? & ->)]|[?|(i & rest & ? & ->)]].
    + left. set_solver.
    + right. exists i, rest. split; [set_solver|done].
    + left. set_solver.
    + right. exists i, rest. split; [set_solver|done].
Qed.

Lemma pruned_union ign1 ign2 n :
  pruned (ign1 ∪ ign2) n = pruned ign1 n || pruned ign2 n.
Proof.
  unfold pruned. destruct (qualified_name n); [apply ignored_union|done].
Qed.

Lemma pruned_empty n : pruned ∅ n = false.
Proof.
  unfold pruned. destruct (qualified_name n) as [name|]; [|done].
  unfold ignored. rewrite elements_empty. simpl.
  rewrite orb_false_r. apply bool_decide_eq_false. set_solver.
Qed.

Lemma graph_eq G G' :
  (∀ n, nodes G !! n = nodes G' !! n) →
  (∀ u v, edges G !! (u, v) = edges G' !! (u, v)) → G = G'.
Proof.
  intros Hn He. destruct G as [ns es], G' as [ns' es']. cbn [nodes edges] in *.
  f_equal; apply map_eq; [done|]. by intros [u v].
Qed.

(** A dot-free prefix with a dot ends where the first dot of the name is. *)
Lemma startswith_dotted (i R rest : string) :
  PyStr.contains "." i = false →
  PyStr.startswith (R +:+ "." +:+ rest) (i +:+ ".")
  = bool_decide (R = i) || PyStr.startswith R (i +:+ ".").
Proof.
  revert R. induction i as [|a i IH]; intros R Hi.
  - destruct R as [|c R]; [done|].
    change (PyStr.startswith (String c (R +:+ "." +:+ rest)) "."
            = bool_decide (String c R = "") || PyStr.startswith (String c R) ".").
    rewrite bool_decide_eq_false_2 by done. simpl. by case_decide.
  - simpl in Hi. case_decide as Ha; [done|].
    destruct R as [|c R].
    + change (PyStr.startswith (String "." rest) (String a (i +:+ "."))
              = bool_decide ("" = String a i) || false).
      rewrite bool_decide_eq_false_2 by done. simpl.
      by rewrite decide_False.
    + change (PyStr.startswith (String c (R +:+ "." +:+ rest)) (String a (i +:+ "."))
              = bool_decide (String c R = String a i)
                || PyStr.startswith (String c R) (String a (i +:+ "."))).
      simpl. case_decide as Hac.
      * subst c. rewrite IH by done. f_equal.
        apply bool_decide_ext. split; congruence.
      * rewrite bool_decide_eq_false_2; [done|]. congruence.
Qed.

Lemma ignored_dotted ign (R rest : string) :
  set_Forall (λ i, PyStr.contains "." i = false) ign →
  ignored ign (R +:+ "." +:+ rest) = ignored ign R.
Proof.
  intros Hign. apply eq_true_iff_eq. unfold ignored.
  rewrite !orb_true_iff, !bool_decide_eq_true, !existsb_exists. split.
  - intros [Hin|(i & Hi & Hs)].
    + apply Hign in Hin. rewrite contains_app in Hin.
      change (PyStr.contains "." ("." +:+ rest)) with true in Hin.
      by rewrite orb_true_r in Hin.
    + assert (Hi' : i ∈ ign) by (by apply elem_of_elements, list_elem_of_In).
      rewrite startswith_dotted in Hs by (by apply Hign).
      apply orb_true_iff in Hs as [->%bool_decide_eq_true|Hs]; [by left|].
      right. by exists i.
  - intros [Hin|(i & Hi & Hs)].
    + right. exists R. split; [by apply list_elem_of_In, elem_of_elements|].
      rewrite startswith_dotted by (by apply Hign).
      by rewrite bool_decide_eq_true_2.
    + assert (Hi' : i ∈ ign) by (by apply elem_of_elements, list_elem_of_In).
      right. exists i. split; [done|].
      rewrite startswith_dotted by (by apply Hign).
      by rewrite Hs, orb_true_r.
Qed.

End PrunerMore.

(** X12. The Pruner raises exactly when the graph has a node whose name
    has no colon; the ignore set plays no part in that. *)
Theorem prune_graph_error (ign : gset string) (G : DiGraph) :
  prune_graph ign G = None
  ↔ ∃ n, n ∈ dom (nodes G) ∧ PyStr.contains ":" n = false.
Proof.
  unfold prune_graph.
  destruct (to_remove ign (nx.node_list G)) as [l|] eqn:E; simpl.
  - split; [done|]. intros (n & Hn%elem_of_node_list & Hc).
    assert (to_remove ign (nx.node_list G) = None) as E'
      by (apply to_remove_None; eauto).
    congruence.
  - split; [|done]. intros _.
    apply to_remove_None in E as (n & Hn%elem_of_node_list & Hc). eauto.
Qed.

(** X13. Pruning composes: on a graph whose nodes are named [kind:name],
    pruning with one ignore set and then with another gives the graph that
    pruning once with the union of the two gives, so the order of two
    prunings does not matter; and pruning with the empty ignore set
    returns the graph unchanged. *)
Theorem prune_graph_compose (ign1 ign2 : gset string) (G : DiGraph) :
  (∀ n, n ∈ dom (nodes G) → has_colon n) →
  ∃ G1 G12,
    prune_graph ign1 G = Some G1
    ∧ prune_graph ign2 G1 = Some G12
    ∧ prune_graph (ign1 ∪ ign2) G = Some G12
    ∧ prune_graph ∅ G = Some G.
Proof.
  intros Htag.
  destruct (prune_graph_tagged ign1 G Htag) as (G1 & H1 & Hn1 & He1).
  assert (Hdom1 : ∀ n, n ∈ dom (nodes G1) ↔ n ∈ dom (nodes G) ∧ pruned ign1 n = false).
  { intros n. rewrite !elem_of_dom, Hn1.
    destruct (pruned ign1 n); [|naive_solver].
    split; [by intros [? ?]|by intros [_ ?]]. }
  destruct (prune_graph_tagged ign2 G1) as (G12 & H12 & Hn12 & He12).
  { intros n [Hn _]%Hdom1. by apply Htag. }
  destruct (prune_graph_tagged (ign1 ∪ ign2) G Htag) as (Gu & Hu & Hnu & Heu).
  destruct (prune_graph_tagged ∅ G Htag) as (G0 & H0 & Hn0 & He0).
  exists G1, G12. split; [done|]. split; [done|]. split.
  - rewrite Hu. f_equal. apply graph_eq.
    + intros n. rewrite Hnu, Hn12, Hn1, pruned_union.
      by destruct (pruned ign1 n), (pruned ign2 n).
    + intros u v. rewrite Heu, He12, He1.
      repeat case_decide; try done; exfalso;
        rewrite ?Hdom1, ?pruned_union, ?orb_true_iff in *;
        destruct (pruned ign1 u), (pruned ign1 v); naive_solver.
  - rewrite H0. f_equal. apply graph_eq.
    + intros n. by rewrite Hn0, pruned_empty.
    + intros u v. rewrite He0. case_decide as Hc; [|done].
      rewrite !pruned_empty in Hc. naive_solver.
Qed.

Lemma prune_graph_compose_witness :
  ∃ G1 G12,
    prune_graph {["os"]}
      (nx.add_edge "module:app.main" "module:os.path" STYLE_import_edge nx.empty)
    = Some G1
    ∧ prune_graph {["sys"]} G1 = Some G12
    ∧ prune_graph ({["os"]} ∪ {["sys"]})
        (nx.add_edge "module:app.main" "module:os.path" STYLE_import_edge nx.empty)
      = Some G12
    ∧ prune_graph ∅
        (nx.add_edge "module:app.main" "module:os.path" STYLE_import_edge nx.empty)
      = Some (nx.add_edge "module:app.main" "module:os.path" STYLE_import_edge nx.empty).
Proof.
  apply prune_graph_compose.
  intros n. rewrite dom_nodes_add_edge. cbn [nx.empty nodes].
  rewrite dom_empty_L, !elem_of_union, !elem_of_singleton.
  intros [[-> | ->]|[]%elem_of_empty]; reflexivity.
Defined.

(** X14. With an ignore set of dot-free entries, as the built-in one is,
    a dotted name is ignored exactly when its part before any one of its
    dots is: so a node named after something below the root package is
    pruned exactly when the root package's own name is ignored. *)
Theorem ignored_below_root (ign : gset string) (ROOT_PKG rest : string) :
  set_Forall (λ i, PyStr.contains "." i = false) ign →
  ignored ign (ROOT_PKG +:+ "." +:+ rest) = ignored ign ROOT_PKG
  ∧ pruned ign ("module:" +:+ ROOT_PKG +:+ "." +:+ rest) = ignored ign ROOT_PKG
  ∧ pruned ign ("function:" +:+ ROOT_PKG +:+ "." +:+ rest) = ignored ign ROOT_PKG
  ∧ pruned ign ("file:" +:+ ROOT_PKG +:+ "." +:+ rest) = ignored ign ROOT_PKG.
Proof.
  intros Hign. pose proof (ignored_dotted ign ROOT_PKG rest Hign) as H.
  split; [done|]. unfold pruned, qualified_name.
  rewrite partition_module, partition_function, partition_file. done.
Qed.

Lemma ignored_below_root_witness :
  ignored IGNORE_MODULES ("app" +:+ "." +:+ "os") = ignored IGNORE_MODULES "app"
  ∧ pruned IGNORE_MODULES ("module:" +:+ "app" +:+ "." +:+ "os")
    = ignored IGNORE_MODULES "app"
  ∧ pruned IGNORE_MODULES ("function:" +:+ "app" +:+ "." +:+ "os")
    = ignored IGNORE_MODULES "app"
  ∧ pruned IGNORE_MODULES ("file:" +:+ "app" +:+ "." +:+ "os")
    = ignored IGNORE_MODULES "app".
Proof.
  apply (ignored_below_root IGNORE_MODULES "app" "os").
  unfold IGNORE_MODULES. intros i Hi. set_unfold in Hi.
  repeat destruct Hi as [Hi|Hi]; subst i; reflexivity.
Defined.

(** ** The command line *)

Section MainFacts.

Lemma module_name_below_root (ROOT_PKG : string) (path root_dir : Path) (m : string) :
  module_name ROOT_PKG path root_dir = Some m → ∃ rest, m = ROOT_PKG +:+ "." +:+ rest.
Proof.
  unfold module_name.
  destruct (relative_to path root_dir) as [rel|]; [|done]. simpl.
  destruct (with_suffix_empty rel) as [rel'|]; [|done]. simpl.
  intros [= <-]. eauto.
Qed.

Lemma IGNORE_MODULES_dot_free :
  set_Forall (λ i, PyStr.contains "." i = false) IGNORE_MODULES.
Proof.
  unfold IGNORE_MODULES. intros i Hi. set_unfold in Hi.
  repeat destruct Hi as [Hi|Hi]; subst i; reflexivity.
Qed.

End MainFacts.

(** X15. [main] returns a graph for files under the root directory. The
    file node and the module node of every analysed file are in it unless
    the root directory itself is named like an entry of the built-in
    ignore set (a project directory called [logging], say), in which case
    none of them is. *)
Theorem main_keeps_modules (root_dir : Path) (files : list (Path * node)) :
  Forall (λ f, is_Some (module_name (resolved_name root_dir) f.1 root_dir)) files →
  ∃ G, main root_dir files = Some G
       ∧ ∀ fpath tree m,
           (fpath, tree) ∈ files →
           module_name (resolved_name root_dir) fpath root_dir = Some m →
           ("module:" +:+ m ∈ dom (nodes G)
            ↔ ignored IGNORE_MODULES (resolved_name root_dir) = false)
           ∧ ("file:" +:+ m ∈ dom (nodes G)
              ↔ ignored IGNORE_MODULES (resolved_name root_dir) = false).
Proof.
  intros Hfiles. set (ROOT_PKG := resolved_name root_dir) in *.
  destruct (build_graph_total _ _ _ Hfiles) as (rs & G0 & Hrs & HG0 & Hagg).
  destruct (prune_graph_tagged IGNORE_MODULES G0) as (G & HG & Hn & _).
  { intros n. apply (aggregate_tagged rs G0 n); [by eapply analyze_files_tagged|done]. }
  exists G. split; [unfold main; fold ROOT_PKG; by rewrite HG0|].
  intros fpath tree m Hin Hm.
  destruct (module_name_below_root _ _ _ _ Hm) as [rest ->].
  assert (Hr : (fpath, ROOT_PKG +:+ "." +:+ rest,
                analyze ROOT_PKG (ROOT_PKG +:+ "." +:+ rest) tree) ∈ rs)
    by (apply (analyze_files_elem _ _ _ _ _ _ _ Hrs); by exists tree).
  destruct (aggregate_Some rs G0 Hagg) as (Hdom & _).
  assert (Hnodes : ∀ n, n ∈ result_nodes (fpath, ROOT_PKG +:+ "." +:+ rest,
                          analyze ROOT_PKG (ROOT_PKG +:+ "." +:+ rest) tree) →
                        n ∈ dom (nodes G0)).
  { intros n Hnr. rewrite Hdom. apply elem_of_union_list.
    eexists. split; [|exact Hnr]. apply list_elem_of_fmap. by eexists. }
  assert (Hkeep : ∀ n, n ∈ dom (nodes G0) →
            pruned IGNORE_MODULES n = ignored IGNORE_MODULES ROOT_PKG →
            n ∈ dom (nodes G) ↔ ignored IGNORE_MODULES ROOT_PKG = false).
  { intros n [a Ha]%elem_of_dom Hp. rewrite elem_of_dom, Hn, Hp.
    destruct (ignored IGNORE_MODULES ROOT_PKG).
    - split; [by intros [? ?]|done].
    - split; [done|]. intros _. by exists a. }
  pose proof (ignored_dotted IGNORE_MODULES ROOT_PKG rest IGNORE_MODULES_dot_free)
    as Hign.
  split; apply Hkeep.
  - apply Hnodes, elem_of_result_nodes. right. by left.
  - unfold pruned, qualified_name. by rewrite partition_module.
  - apply Hnodes, elem_of_result_nodes. by left.
  - unfold pruned, qualified_name. by rewrite partition_file.
Qed.

Lemma main_keeps_modules_witness :
  ∃ G, main ["/"; "proj"; "logging"]
         [(["/"; "proj"; "logging"; "handlers.py"], Other [FunctionDef "emit" []])]
       = Some G
       ∧ ∀ fpath tree m,
           (fpath, tree) ∈ [(["/"; "proj"; "logging"; "handlers.py"],
                             Other [FunctionDef "emit" []])] →
           module_name (resolved_name ["/"; "proj"; "logging"]) fpath
             ["/"; "proj"; "logging"] = Some m →
           ("module:" +:+ m ∈ dom (nodes G)
            ↔ ignored IGNORE_MODULES (resolved_name ["/"; "proj"; "logging"]) = false)
           ∧ ("file:" +:+ m ∈ dom (nodes G)
              ↔ ignored IGNORE_MODULES (resolved_name ["/"; "proj"; "logging"]) = false).
Proof.
  apply main_keeps_modules. repeat constructor. vm_compute. eauto.
Defined.

Example main_root_named_logging :
  nx.node_list <$>
    main ["/"; "proj"; "logging"]
      [(["/"; "proj"; "logging"; "handlers.py"], Other [FunctionDef "emit" []])]
  = Some [].
Proof. reflexivity. Qed.
